(** * hipBone: the matrix-free local operator and the CG solver

    A shallow embedding of [src/localOperator.cpp],
    [libs/core/linearSolverCG.cpp] and [libs/core/platformDeviceConfig.cpp].

    Conventions.
    - [dlong] and [int] values are integers of [Z]; division is [Z.quot]
      (C++ division truncates toward zero).  Both types are 32 bits wide.
      The second-half count of [LocalOperator], the block count of
      [UpdateCG] and the core count of [DeviceConfig] are computed with
      [CInt.add], [CInt.sub] and [CInt.mul], which wrap around as the
      two's-complement machines the program runs on do (signed overflow is
      undefined behaviour in C++); a statement that needs the mathematical
      result carries the bound under which nothing overflows.
    - [dfloat] is a parameter of the development, the class [Scalar]: the
      solver is written once and read at binary64 floats (the arithmetic the
      program runs) and at the real numbers (the arithmetic the numerical
      method is stated in).
    - an [occa::memory] is a handle into a store of device buffers wherever
      aliasing matters, and the buffer's contents where it does not. *)

From Stdlib Require Import ZArith List Lia Bool Permutation.
From Stdlib Require Import Reals Lra Floats.
From Stdlib Require String Ascii DecimalString.
Import ListNotations.

Local Open Scope Z_scope.

(** * Part I: the program *)

(** ** [int] *)

Module CInt.

Definition INT_MAX : Z := 2147483647.
Definition INT_MIN : Z := -2147483648.

(** The value of 32 bits read as a signed integer. *)
Definition wrap (z : Z) : Z := (z + 2147483648) mod 4294967296 - 2147483648.

Definition add (a b : Z) : Z := wrap (a + b).
Definition sub (a b : Z) : Z := wrap (a - b).
Definition mul (a b : Z) : Z := wrap (a * b).

Definition in_range (z : Z) : Prop := INT_MIN <= z <= INT_MAX.

End CInt.

(** ** Device buffers *)

Module Device.

(** The identity of a device allocation: two [occa::memory] values with the
    same handle are the same buffer. *)
Definition handle := nat.

Section Store.
Context {B : Type}.

Definition store := handle -> list B.

Definition store_set (st : store) (h : handle) (v : list B) : store :=
  fun h' => if Nat.eqb h' h then v else st h'.

(** [a[i] = x] on a buffer; a write outside the buffer is outside the model
    (out of bounds in the program) and leaves the list as it is. *)
Fixpoint list_set (l : list B) (i : nat) (x : B) : list B :=
  match l, i with
  | [], _ => []
  | _ :: t, O => x :: t
  | h :: t, S i' => h :: list_set t i' x
  end.

Definition buf_set (l : list B) (i : Z) (x : B) : list B :=
  if (i <? 0) then l else list_set l (Z.to_nat i) x.

End Store.

End Device.

(** ** [hipBone_t::LocalOperator] (src/localOperator.cpp) *)

Module LocalOp.
Import Device.

Section LocalOperator.
(** [B]: the nodal values of one element (a block of [Np] dfloats); a vector
    in element-local layout is a list of blocks indexed by element.
    [G], [Dm]: the geometric factors [mesh.o_ggeo] and the differentiation
    matrix [mesh.o_D], read only.  [Lam]: the type of [lambda]. *)
Context {B G Dm Lam : Type}.

(** [sizeof(dlong)]: the declaration of [dlong] is not in the sources; the
    counts of the mesh are [int]s in the default build, and their arithmetic
    is that of [CInt]. *)
Variable sizeof_dlong : Z.

Record mesh_t := {
  NlocalGatherElements : Z;
  NglobalGatherElements : Z;
  o_localGatherElementList : list Z;
  o_globalGatherElementList : list Z;
  o_ggeo : G;
  o_D : Dm
}.

Record hipBone_t := {
  mesh : mesh_t;
  lambda : Lam;
  o_AqL : handle
}.

(** [o_list + bytes]: the slice of an element list that starts [bytes] bytes
    into it, as the kernel sees it through a [dlong*]. *)
Definition occa_plus (l : list Z) (bytes : Z) : list Z :=
  skipn (Z.to_nat (Z.quot bytes sizeof_dlong)) l.

(** One kernel launch as the device records it. *)
Record launch := {
  k_Nelements : Z;
  k_elementList : list Z;
  k_q : handle;
  k_Aq : handle
}.

Record device := {
  mem : @store B;
  launches : list launch
}.

(** The compiled kernel [localOperatorKernel(Nelements, elementList, ggeo, D,
    lambda, q, Aq)]; its source is not among the sources, so it is a
    parameter: the result is the new contents of [Aq]. *)
Variable localOperatorKernel :
  Z -> list Z -> G -> Dm -> Lam -> list B -> list B -> list B.

Definition run_localOperatorKernel (Nel : Z) (elts : list Z)
    (g : G) (D : Dm) (lam : Lam) (o_q o_Aq : handle) (d : device) : device :=
  {| mem := store_set (mem d) o_Aq
              (localOperatorKernel Nel elts g D lam (mem d o_q) (mem d o_Aq));
     launches := launches d ++
              [ {| k_Nelements := Nel; k_elementList := elts;
                   k_q := o_q; k_Aq := o_Aq |} ] |}.

(** Lines 32-37: the first half of the local elements. *)
Definition dispatch_localHalf1 (hb : hipBone_t) (o_qL : handle)
    (d : device) : device :=
  let m := mesh hb in
  if Z.quot (NlocalGatherElements m) 2 =? 0 then d
  else run_localOperatorKernel
         (Z.quot (NlocalGatherElements m) 2)
         (o_localGatherElementList m)
         (o_ggeo m) (o_D m) (lambda hb) o_qL (o_AqL hb) d.

(** Lines 40-45: the halo-dependent elements. *)
Definition dispatch_global (hb : hipBone_t) (o_qL : handle)
    (d : device) : device :=
  let m := mesh hb in
  if NglobalGatherElements m =? 0 then d
  else run_localOperatorKernel
         (NglobalGatherElements m)
         (o_globalGatherElementList m)
         (o_ggeo m) (o_D m) (lambda hb) o_qL (o_AqL hb) d.

(** Lines 47-52: the second half of the local elements. *)
Definition dispatch_localHalf2 (hb : hipBone_t) (o_qL : handle)
    (d : device) : device :=
  let m := mesh hb in
  if Z.quot (CInt.add (NlocalGatherElements m) 1) 2 =? 0 then d
  else run_localOperatorKernel
         (Z.quot (CInt.add (NlocalGatherElements m) 1) 2)
         (occa_plus (o_localGatherElementList m)
            (Z.quot (NlocalGatherElements m) 2 * sizeof_dlong))
         (o_ggeo m) (o_D m) (lambda hb) o_qL (o_AqL hb) d.

(** The body never mentions its second parameter [o_Aq]: every launch is
    given the member [o_AqL]. *)
Definition LocalOperator (hb : hipBone_t) (o_qL o_Aq : handle)
    (d : device) : device :=
  dispatch_localHalf2 hb o_qL
    (dispatch_global hb o_qL
       (dispatch_localHalf1 hb o_qL d)).

(** The elements a launch works on: the first [Nelements] entries of the
    list it was given. *)
Definition launch_elements (l : launch) : list Z :=
  firstn (Z.to_nat (k_Nelements l)) (k_elementList l).

Definition dispatched_elements (ls : list launch) : list Z :=
  flat_map launch_elements ls.

(** The launch each dispatch issues when it is not skipped. *)
Definition launch_half1 (hb : hipBone_t) (o_qL : handle) : launch :=
  {| k_Nelements := Z.quot (NlocalGatherElements (mesh hb)) 2;
     k_elementList := o_localGatherElementList (mesh hb);
     k_q := o_qL; k_Aq := o_AqL hb |}.

Definition launch_global (hb : hipBone_t) (o_qL : handle) : launch :=
  {| k_Nelements := NglobalGatherElements (mesh hb);
     k_elementList := o_globalGatherElementList (mesh hb);
     k_q := o_qL; k_Aq := o_AqL hb |}.

Definition launch_half2 (hb : hipBone_t) (o_qL : handle) : launch :=
  {| k_Nelements := Z.quot (CInt.add (NlocalGatherElements (mesh hb)) 1) 2;
     k_elementList :=
       occa_plus (o_localGatherElementList (mesh hb))
         (Z.quot (NlocalGatherElements (mesh hb)) 2 * sizeof_dlong);
     k_q := o_qL; k_Aq := o_AqL hb |}.

(** [if (count) launch]: the launches a guarded dispatch adds. *)
Definition when_nonzero (count : Z) (l : launch) : list launch :=
  if count =? 0 then [] else [l].

(** The elements of the mesh: those of its two lists. *)
Definition mesh_elements (m : mesh_t) : list Z :=
  o_localGatherElementList m ++ o_globalGatherElementList m.

(** The set-up invariant of the mesh: each count is the length of its list. *)
Definition mesh_wf (m : mesh_t) : Prop :=
  Z.of_nat (length (o_localGatherElementList m)) = NlocalGatherElements m
  /\ Z.of_nat (length (o_globalGatherElementList m))
     = NglobalGatherElements m.

End LocalOperator.

Arguments mesh_t : clear implicits.
Arguments hipBone_t : clear implicits.
Arguments device : clear implicits.
Arguments launch_half1 {G Dm Lam}.
Arguments launch_global {G Dm Lam}.
Arguments launch_half2 {G Dm Lam}.

Section ElementwiseKernel.
Context {B G Dm Lam : Type}.

(** The operator of one element: the block it produces for element [e] from
    the input vector. *)
Variable elementOperator : G -> Dm -> Lam -> Z -> list B -> B.

Fixpoint write_elements (elts : list Z) (g : G) (D : Dm) (lam : Lam)
    (q Aq : list B) : list B :=
  match elts with
  | [] => Aq
  | e :: es =>
      write_elements es g D lam q (buf_set Aq e (elementOperator g D lam e q))
  end.

(** Modelled from the spec: the device kernel (an .okl source) is not among
    the sources; the spec has it apply "the matrix-free per-element
    operator", "element-by-element": for each of the first [Nelements]
    entries [e] of the list, the block of [Aq] of element [e] becomes the
    element operator applied to [q]. *)
Definition elementwise_kernel (Nel : Z) (elts : list Z) (g : G) (D : Dm)
    (lam : Lam) (q Aq : list B) : list B :=
  write_elements (firstn (Z.to_nat Nel) elts) g D lam q Aq.

End ElementwiseKernel.

End LocalOp.

(** ** [dfloat] *)

Class Scalar (F : Type) := {
  fzero : F;
  fone : F;
  fadd : F -> F -> F;
  fsub : F -> F -> F;
  fmul : F -> F -> F;
  fdiv : F -> F -> F;
  fopp : F -> F;
  fsqrt : F -> F;
  fleb : F -> F -> bool;
  fltb : F -> F -> bool
}.

(** binary64, the [double] the program computes with. *)
#[export] Instance Scalar_float : Scalar float := {
  fzero := 0%float;
  fone := 1%float;
  fadd := PrimFloat.add;
  fsub := PrimFloat.sub;
  fmul := PrimFloat.mul;
  fdiv := PrimFloat.div;
  fopp := PrimFloat.opp;
  fsqrt := PrimFloat.sqrt;
  fleb := PrimFloat.leb;
  fltb := PrimFloat.ltb
}.

Definition Rleb (a b : R) : bool := if Rle_dec a b then true else false.
Definition Rltb (a b : R) : bool := if Rlt_dec a b then true else false.

(** The real numbers: exact arithmetic.  [Rdiv] has a value at a zero
    divisor, where the program's division gives an infinity or a NaN: the
    statements made on this instance are for symmetric positive definite
    operators, for which no iteration that runs divides by zero. *)
#[export] Instance Scalar_R : Scalar R := {
  fzero := 0%R;
  fone := 1%R;
  fadd := Rplus;
  fsub := Rminus;
  fmul := Rmult;
  fdiv := Rdiv;
  fopp := Ropp;
  fsqrt := R_sqrt.sqrt;
  fleb := Rleb;
  fltb := Rltb
}.

(** Modelled from the spec: the macro [mymax] is not among the sources; the
    spec reads [TOL = max(tolerance^2 * rdotr, tolerance^2)].  As a macro
    over a comparison: [a > b ? a : b]. *)
Definition mymax {F} `{Scalar F} (a b : F) : F :=
  if fltb b a then a else b.

(** ** Dense vector algebra ([linAlg_t]) *)

Module LinAlg.

Section LinAlg.
Context {F : Type} `{Scalar F}.

(** The cross-process sum of one scalar per rank ([MPI_Allreduce] with
    [MPI_SUM] over [comm]), seen from this rank: the sum as a function of
    the local contribution.  On a communicator of one rank it is the
    identity. *)
Variable comm : F -> F.

(** Modelled from the spec: [axpy(n, a, X, b, Y)] is [Y = a*X + b*Y], on the
    first [n] entries. *)
Fixpoint axpy (n : nat) (a : F) (X : list F) (b : F) (Y : list F) : list F :=
  match n, X, Y with
  | S n', x :: X', y :: Y' => fadd (fmul a x) (fmul b y) :: axpy n' a X' b Y'
  | _, _, _ => Y
  end.

(** The local sum of products over the first [n] entries.  The order in
    which the device reduction adds the terms is not fixed by the sources. *)
Fixpoint dot (n : nat) (X Y : list F) : F :=
  match n, X, Y with
  | S n', x :: X', y :: Y' => fadd (fmul x y) (dot n' X' Y')
  | _, _, _ => fzero
  end.

(** Two buffers agree at every index from [n] on (for [n = N]: on the halo
    entries). *)
Definition same_beyond (n : nat) (u v : list F) : Prop :=
  forall i, (n <= i)%nat -> nth_error u i = nth_error v i.

(** Modelled from the spec: [innerProd], the global inner product. *)
Definition innerProd (n : nat) (X Y : list F) : F := comm (dot n X Y).

(** Modelled from the spec: [norm2], the global 2-norm. *)
Definition norm2 (n : nat) (X : list F) : F := fsqrt (comm (dot n X X)).

End LinAlg.

End LinAlg.

(** ** [libp::cg] (libs/core/linearSolverCG.cpp) *)

Module CG.
Import LinAlg.

Definition CG_BLOCKSIZE : Z := 1024.

(** Lines 139-140 of [UpdateCG]: [N+CG_BLOCKSIZE-1] is computed in [int],
    from left to right. *)
Definition UpdateCG_Nblocks (N : Z) : Z :=
  let Nblocks :=
    Z.quot (CInt.sub (CInt.add N CG_BLOCKSIZE) 1) CG_BLOCKSIZE in
  if Nblocks >? CG_BLOCKSIZE then CG_BLOCKSIZE else Nblocks.

(** What the spec says the block count is. *)
Definition ceil_div (n d : Z) : Z :=
  n / d + (if n mod d =? 0 then 0 else 1).

Definition spec_Nblocks (N : Z) : Z := Z.min (ceil_div N 1024) 1024.

Section Solver.
Context {F : Type} `{Scalar F}.

Variable comm : F -> F.

(** [solver.Operator(o_q, o_Aq)]: the operator is a collaborator; it is
    handed both buffers by reference, so it returns both. *)
Variable Operator : list F -> list F -> list F * list F.

Record cg_t := {
  N : Z;
  Nhalo : Z;
  o_p : list F;
  o_Ap : list F;
  tmprdotr : F;
  o_tmprdotr : F
}.

(** The constructor, lines 33-48.  The base-class constructor
    [linearSolver_t(_platform, _N, _Nhalo)] is not among the sources; it is
    taken to store [_Nhalo] in the member [Nhalo].  [calloc] gives [Ntotal]
    zeros, and both [platform.malloc(bytes, dummy)] copy them to the device.
    The two reduction cells are allocated without a source: their contents
    are whatever the allocator left there, [junk_host] and [junk_dev]. *)
Definition cg_new (_N _Nhalo : Z) (junk_host junk_dev : F) : cg_t :=
  let Ntotal := _N + _Nhalo in
  let dummy := repeat fzero (Z.to_nat Ntotal) in
  {| N := _N; Nhalo := _Nhalo;
     o_p := dummy; o_Ap := dummy;
     tmprdotr := junk_host; o_tmprdotr := junk_dev |}.

(** [r <= r - alpha*Ap] on the first [n] entries. *)
Fixpoint update_r (n : nat) (Ap : list F) (alpha : F) (r : list F) : list F :=
  match n, Ap, r with
  | S n', a :: Ap', x :: r' => fsub x (fmul alpha a) :: update_r n' Ap' alpha r'
  | _, _, _ => r
  end.

(** Modelled from the spec: the fused kernel [updateCG_r_atomic] (an .okl
    source) is not among the sources; per section 4.3 it "updates
    r <- r - alpha*Ap element-wise, computes the chunk's local sum of squares
    of the updated r, and atomically accumulates that partial sum into the
    single shared accumulator".  [Nblocks] shapes the chunks, not the
    result. *)
Definition updateCGKernel_r (n : Z) (Nblocks : Z) (Ap : list F) (alpha : F)
    (r : list F) (acc : F) : list F * F :=
  let r' := update_r (Z.to_nat n) Ap alpha r in
  (r', fadd acc (dot (Z.to_nat n) r' r')).

(** The solver's own vector operations, one definition per statement of the
    source. *)

(** Line 84: [linAlg.axpy(N, -1.f, o_Ap, 1.f, o_r)]. *)
Definition residual_init (c : cg_t) (o_r : list F) : list F :=
  axpy (Z.to_nat (N c)) (fopp fone) (o_Ap c) fone o_r.

(** Line 107: [linAlg.axpy(N, 1.f, o_r, beta, o_p)]. *)
Definition direction_update (c : cg_t) (o_r : list F) (beta : F) : list F :=
  axpy (Z.to_nat (N c)) fone o_r beta (o_p c).

(** Lines 143-144: the accumulator reset and the fused kernel. *)
Definition residual_update (c : cg_t) (alpha : F) (o_r : list F)
    : list F * F :=
  updateCGKernel_r (N c) (UpdateCG_Nblocks (N c)) (o_Ap c) alpha o_r fzero.

(** Line 150: [linAlg.axpy(N, alpha, o_p, 1.0, o_x)]. *)
Definition solution_update (c : cg_t) (alpha : F) (o_x : list F) : list F :=
  axpy (Z.to_nat (N c)) alpha (o_p c) fone o_x.

Record UpdateCG_result := {
  u_rdotr : F;
  u_x : list F;
  u_r : list F;
  u_cg : cg_t
}.

(** [cg::UpdateCG], lines 133-159, by its values; the order in which the
    host and the device get there is [Stream.UpdateCG_host] below. *)
Definition UpdateCG (c : cg_t) (alpha : F) (o_x o_r : list F)
    : UpdateCG_result :=
  let '(r', acc) := residual_update c alpha o_r in
  let host := acc in
  let x' := solution_update c alpha o_x in
  let rdotr1 := comm host in
  {| u_rdotr := rdotr1; u_x := x'; u_r := r';
     u_cg := {| N := N c; Nhalo := Nhalo c; o_p := o_p c; o_Ap := o_Ap c;
                tmprdotr := host; o_tmprdotr := acc |} |}.

(** The state of [Solve]: the solver object, the caller's two vectors and
    the register scalars. *)
Record solve_t := {
  s_cg : cg_t;
  s_x : list F;
  s_r : list F;
  s_rdotr1 : F;
  s_rdotr2 : F;
  s_alpha : F;
  s_beta : F;
  s_pAp : F;
  s_rdotr : F
}.

Definition with_vectors (c : cg_t) (p Ap : list F) : cg_t :=
  {| N := N c; Nhalo := Nhalo c; o_p := p; o_Ap := Ap;
     tmprdotr := tmprdotr c; o_tmprdotr := o_tmprdotr c |}.

(** Lines 80-89: the initial residual, [rdotr] and [TOL]. *)
Definition Solve_init (c : cg_t) (o_x o_r : list F) (tol : F)
    : F * solve_t :=
  let '(x1, Ap1) := Operator o_x (o_Ap c) in
  let c1 := with_vectors c (o_p c) Ap1 in
  let r1 := residual_init c1 o_r in
  let nrm := norm2 comm (Z.to_nat (N c)) r1 in
  let rdotr := fmul nrm nrm in
  let TOL := mymax (fmul (fmul tol tol) rdotr) (fmul tol tol) in
  (TOL,
   {| s_cg := c1; s_x := x1; s_r := r1;
      s_rdotr1 := fzero; s_rdotr2 := fzero;
      s_alpha := fzero; s_beta := fzero; s_pAp := fzero;
      s_rdotr := rdotr |}).

(** Lines 100-120: the body of the loop below the exit test.  The printing
    of the verbose mode changes no value and is left out. *)
Definition cg_iteration (iter : Z) (s : solve_t) : solve_t :=
  let c := s_cg s in
  let rdotr2 := s_rdotr1 s in
  let rdotr1 := s_rdotr s in
  let beta := if iter =? 0 then fzero else fdiv rdotr1 rdotr2 in
  let p := direction_update c (s_r s) beta in
  let '(p', Ap) := Operator p (o_Ap c) in
  let c' := with_vectors c p' Ap in
  let pAp := innerProd comm (Z.to_nat (N c)) p' Ap in
  let alpha := fdiv rdotr1 pAp in
  let u := UpdateCG c' alpha (s_x s) (s_r s) in
  {| s_cg := u_cg u; s_x := u_x u; s_r := u_r u;
     s_rdotr1 := rdotr1; s_rdotr2 := rdotr2;
     s_alpha := alpha; s_beta := beta; s_pAp := pAp;
     s_rdotr := u_rdotr u |}.

(** Lines 94-128: [for(iter=0; iter<MAXIT; ++iter)], with [fuel] the number
    of trips the loop condition still allows, [MAXIT - iter]. *)
Fixpoint cg_loop (fuel : nat) (TOL : F) (iter : Z) (s : solve_t)
    : Z * solve_t :=
  match fuel with
  | O => (iter, s)
  | S fuel' =>
      if fleb (s_rdotr s) TOL then (iter, s)
      else cg_loop fuel' TOL (iter + 1) (cg_iteration iter s)
  end.

(** One trip of the loop from a state at its top: the exit test, then the
    body and the increment. *)
Definition guarded_iteration (TOL : F) (r : Z * solve_t) : Z * solve_t :=
  if fleb (s_rdotr (snd r)) TOL then r
  else (fst r + 1, cg_iteration (fst r) (snd r)).

(** [cg::Solve], lines 67-131: the iteration count it returns and the state
    it leaves. *)
Definition Solve (c : cg_t) (o_x o_r : list F) (tol : F) (MAXIT : Z)
    : Z * solve_t :=
  let '(TOL, s0) := Solve_init c o_x o_r tol in
  cg_loop (Z.to_nat MAXIT) TOL 0 s0.

(** An operator that reads its input and writes its output only:
    [o_Aq = A(o_q)]. *)
Definition pure_operator (A : list F -> list F)
    : list F -> list F -> list F * list F :=
  fun q _ => (q, A q).

End Solver.

Arguments cg_t : clear implicits.
Arguments solve_t : clear implicits.
Arguments UpdateCG_result : clear implicits.

End CG.

(** ** The device stream of [UpdateCG] *)

Module Stream.

(** The work [UpdateCG] puts on the device's stream, lines 143-150. *)
Inductive dev_op :=
| SetKernel          (* linAlg.setKernel(1, 0.0, o_tmprdotr) *)
| UpdateCGKernel_r   (* updateCGKernel_r(N, Nblocks, o_Ap, alpha, o_r, ..) *)
| CopyTo_async       (* o_tmprdotr.copyTo(tmprdotr, .., "async: true") *)
| Axpy_x.            (* linAlg.axpy(N, alpha, o_p, 1.0, o_x) *)

(** What the controlling thread does, in program order. *)
Inductive host_cmd :=
| Enqueue (o : dev_op)
| TagStream          (* tag = platform.device.tagStream() *)
| WaitFor            (* platform.device.waitFor(tag) *)
| Allreduce.         (* MPI_Allreduce(tmprdotr, &rdotr1, ..) *)

(** Lines 143-156 of [UpdateCG]. *)
Definition UpdateCG_host : list host_cmd :=
  [ Enqueue SetKernel;
    Enqueue UpdateCGKernel_r;
    Enqueue CopyTo_async;
    TagStream;
    Enqueue Axpy_x;
    WaitFor;
    Allreduce ].

(** The host and one in-order stream: what the host has still to do, the
    work enqueued so far, how much of it (a prefix) has completed, the
    position the tag marks, and what was still outstanding each time the
    reduction was entered. *)
Record machine := {
  todo : list host_cmd;
  queue : list dev_op;
  completed : nat;
  tag : nat;
  at_allreduce : list (list dev_op)
}.

Definition start (prog : list host_cmd) : machine :=
  {| todo := prog; queue := []; completed := 0; tag := 0;
     at_allreduce := [] |}.

Definition outstanding (m : machine) : list dev_op :=
  skipn (completed m) (queue m).

(** [tagStream] marks the work enqueued before it; [waitFor(tag)] returns
    once that work has completed.  The device completes enqueued work in
    order, at its own pace. *)
Inductive step : machine -> machine -> Prop :=
| step_enqueue : forall o rest q c t a,
    step {| todo := Enqueue o :: rest; queue := q; completed := c; tag := t;
            at_allreduce := a |}
         {| todo := rest; queue := q ++ [o]; completed := c; tag := t;
            at_allreduce := a |}
| step_tag : forall rest q c t a,
    step {| todo := TagStream :: rest; queue := q; completed := c; tag := t;
            at_allreduce := a |}
         {| todo := rest; queue := q; completed := c; tag := length q;
            at_allreduce := a |}
| step_wait : forall rest q c t a,
    (t <= c)%nat ->
    step {| todo := WaitFor :: rest; queue := q; completed := c; tag := t;
            at_allreduce := a |}
         {| todo := rest; queue := q; completed := c; tag := t;
            at_allreduce := a |}
| step_allreduce : forall rest q c t a,
    step {| todo := Allreduce :: rest; queue := q; completed := c; tag := t;
            at_allreduce := a |}
         {| todo := rest; queue := q; completed := c; tag := t;
            at_allreduce := a ++ [skipn c q] |}
| step_device : forall p q c t a,
    (c < length q)%nat ->
    step {| todo := p; queue := q; completed := c; tag := t;
            at_allreduce := a |}
         {| todo := p; queue := q; completed := S c; tag := t;
            at_allreduce := a |}.

Inductive steps : machine -> machine -> Prop :=
| steps_refl : forall m, steps m m
| steps_step : forall m1 m2 m3, steps m1 m2 -> step m2 m3 -> steps m1 m3.

(** The same machine driven by a schedule: [true] lets the host take its
    next command, [false] lets the device complete its next piece of work;
    a choice that cannot be taken (a [waitFor] that would block, an idle
    device) has no result. *)
Definition run1 (host : bool) (m : machine) : option machine :=
  if host then
    match todo m with
    | [] => None
    | Enqueue o :: rest =>
        Some {| todo := rest; queue := queue m ++ [o];
                completed := completed m; tag := tag m;
                at_allreduce := at_allreduce m |}
    | TagStream :: rest =>
        Some {| todo := rest; queue := queue m; completed := completed m;
                tag := length (queue m); at_allreduce := at_allreduce m |}
    | WaitFor :: rest =>
        if (tag m <=? completed m)%nat
        then Some {| todo := rest; queue := queue m;
                     completed := completed m; tag := tag m;
                     at_allreduce := at_allreduce m |}
        else None
    | Allreduce :: rest =>
        Some {| todo := rest; queue := queue m; completed := completed m;
                tag := tag m;
                at_allreduce := at_allreduce m ++ [outstanding m] |}
    end
  else
    if (completed m <? length (queue m))%nat
    then Some {| todo := todo m; queue := queue m;
                 completed := S (completed m); tag := tag m;
                 at_allreduce := at_allreduce m |}
    else None.

Fixpoint run (sched : list bool) (m : machine) : option machine :=
  match sched with
  | [] => Some m
  | b :: rest =>
      match run1 b m with
      | Some m' => run rest m'
      | None => None
      end
  end.

(** A schedule in which the device completes the accumulator reset, the
    fused kernel and the transfer, and nothing more, before the host goes
    on; and the machine it ends in. *)
Definition overlap_schedule : list bool :=
  [true; true; true; true; true; false; false; false; true; true].

Definition overlap_machine : machine :=
  {| todo := [];
     queue := [SetKernel; UpdateCGKernel_r; CopyTo_async; Axpy_x];
     completed := 3;
     tag := 3;
     at_allreduce := [[Axpy_x]] |}.

(** The work a stretch of host commands enqueues. *)
Fixpoint enqueued (prog : list host_cmd) : list dev_op :=
  match prog with
  | [] => []
  | Enqueue o :: rest => o :: enqueued rest
  | _ :: rest => enqueued rest
  end.

(** What holds of the machine when the host has taken the first [k]
    commands of [UpdateCG_host]. *)
Definition after_commands (k : nat) (m : machine) : Prop :=
  (k <= 7)%nat
  /\ todo m = skipn k UpdateCG_host
  /\ queue m = enqueued (firstn k UpdateCG_host)
  /\ (completed m <= length (queue m))%nat
  /\ (4 <= k -> tag m = 3)%nat
  /\ (6 <= k -> 3 <= completed m)%nat
  /\ (k <= 6 -> at_allreduce m = [])%nat
  /\ (k = 7%nat ->
      exists c, (3 <= c)%nat
                /\ at_allreduce m = [skipn c (enqueued UpdateCG_host)]).

End Stream.

(** ** Exact arithmetic: the notions the numerical method is stated in *)

Module Exact.
Import LinAlg.
Local Open Scope R_scope.

(** The buffer has at least [n] entries. *)
Definition long (n : nat) (X : list R) : Prop := (n <= length X)%nat.

(** A symmetric positive definite linear operator on the first [n] entries,
    in terms of the inner product the solver computes. *)
Record SPD (n : nat) (A : list R -> list R) : Prop := {
  spd_long : forall X, long n X -> long n (A X);
  spd_linear : forall a X b Y Z, long n X -> long n Y -> long n Z ->
    dot n Z (A (axpy n a X b Y)) = a * dot n Z (A X) + b * dot n Z (A Y);
  spd_symmetric : forall X Y, long n X -> long n Y ->
    dot n X (A Y) = dot n (A X) Y;
  spd_positive : forall X, long n X ->
    0 < dot n X X -> 0 < dot n X (A X)
}.

(** The energy functional [x.Ax / 2 - b.x], whose minimiser solves
    [A x = b]; up to a constant it is half the squared A-norm of the
    error. *)
Definition energy (n : nat) (A : list R -> list R) (b x : list R) : R :=
  dot n x (A x) / 2 - dot n b x.

(** What holds at the top of the loop of [Solve], in exact arithmetic on
    one rank, for the right-hand side [b]: [rdotr] is the squared norm of
    [r], [r] is the residual [b - A x] (tested against every vector), and
    from the second trip on [r] is orthogonal to the previous direction. *)
Definition cg_invariant (n : nat) (A : list R -> list R) (b : list R)
    (iter : Z) (s : CG.solve_t R) : Prop :=
  (0 <= iter)%Z
  /\ Z.to_nat (CG.N (CG.s_cg s)) = n
  /\ long n (CG.s_x s) /\ long n (CG.s_r s)
  /\ long n (CG.o_p (CG.s_cg s))
  /\ CG.s_rdotr s = dot n (CG.s_r s) (CG.s_r s)
  /\ (forall Z, long n Z ->
        dot n Z (CG.s_r s) = dot n Z b - dot n Z (A (CG.s_x s)))
  /\ (iter = 0%Z \/ dot n (CG.s_r s) (CG.o_p (CG.s_cg s)) = 0).

(** [Solve] on exact arithmetic and one rank, for an operator that writes
    its output only. *)
Definition Solve_exact (A : list R -> list R) (c : CG.cg_t R)
    (o_x o_r : list R) (tol : R) (MAXIT : Z) : Z * CG.solve_t R :=
  CG.Solve (fun x => x) (CG.pure_operator A) c o_x o_r tol MAXIT.

End Exact.

(** ** Sample inputs *)

Module Sample.
Import Device LocalOp.

(** A mesh of five elements with one node each: blocks are integers, and
    the element operator scales the element's entry of the input by
    [lambda]. *)
Definition scale_op (_ _ : unit) (lam : Z) (e : Z) (q : list Z) : Z :=
  lam * nth (Z.to_nat e) q 0.

Definition mesh5 : mesh_t unit unit :=
  {| NlocalGatherElements := 3;
     NglobalGatherElements := 2;
     o_localGatherElementList := [0; 2; 3];
     o_globalGatherElementList := [1; 4];
     o_ggeo := tt; o_D := tt |}.

(** Buffer 0 is the input, buffer 1 the caller's output buffer, buffer 2
    the solver's [o_AqL]. *)
Definition hb5 : hipBone_t unit unit Z :=
  {| mesh := mesh5; lambda := 2; o_AqL := 2%nat |}.

Definition dev5 : device Z :=
  {| mem := fun h => match h with
                     | O => [1; 2; 3; 4; 5]
                     | _ => [0; 0; 0; 0; 0]
                     end;
     launches := [] |}.

Definition LocalOperator5 (o_qL o_Aq : handle) : device Z :=
  LocalOperator 4 (elementwise_kernel scale_op) hb5 o_qL o_Aq dev5.

(** A mesh with one local element and no global element: the first half
    and the global list are empty. *)
Definition mesh1 : mesh_t unit unit :=
  {| NlocalGatherElements := 1;
     NglobalGatherElements := 0;
     o_localGatherElementList := [0];
     o_globalGatherElementList := [];
     o_ggeo := tt; o_D := tt |}.

Definition hb1 : hipBone_t unit unit Z :=
  {| mesh := mesh1; lambda := 2; o_AqL := 2%nat |}.

(** The largest mesh an [int] can count: INT_MAX local elements, numbered
    from 0, and no global element. *)
Definition mesh_max : mesh_t unit unit :=
  {| NlocalGatherElements := CInt.INT_MAX;
     NglobalGatherElements := 0;
     o_localGatherElementList := map Z.of_nat (seq 0 (Z.to_nat CInt.INT_MAX));
     o_globalGatherElementList := [];
     o_ggeo := tt; o_D := tt |}.

Definition hb_max : hipBone_t unit unit Z :=
  {| mesh := mesh_max; lambda := 2; o_AqL := 2%nat |}.

(** A communicator of one rank: the sum over the ranks is the local
    value. *)
Definition one_rank {F : Type} (x : F) : F := x.

(** The operator diag(1, 100) on two unknowns, symmetric positive
    definite. *)
Definition diag_1_100 (q : list float) : list float :=
  match q with
  | [a; b] => [PrimFloat.mul a 1; PrimFloat.mul b 100]
  | _ => q
  end.

(** [Solve] for [diag(1,100) x = (10, 1)] from [x = 0], with tolerance
    [2^-30], on binary64. *)
Definition Solve_diag (MAXIT : Z) : Z * CG.solve_t float :=
  CG.Solve one_rank (CG.pure_operator diag_1_100)
    (CG.cg_new 2 0 0%float 0%float)
    [0%float; 0%float] [10%float; 1%float] 0x1p-30%float MAXIT.

(** [Solve] for the identity operator from [x = 0] with right-hand side
    [r0], on binary64. *)
Definition Solve_identity (r0 : list float) (tol : float) (MAXIT : Z)
    : Z * CG.solve_t float :=
  CG.Solve one_rank (CG.pure_operator (fun q => q))
    (CG.cg_new (Z.of_nat (length r0)) 0 0%float 0%float)
    (repeat 0%float (length r0)) r0 tol MAXIT.

(** diag(1, 100) on the first two entries, on the reals. *)
Definition diag_1_100_exact (q : list R) : list R :=
  match q with
  | a :: b :: t => (1 * a)%R :: (100 * b)%R :: t
  | _ => q
  end.

End Sample.

(** ** Exact arithmetic: linear operators and the residual *)

Module Residual.
Import LinAlg Exact.
Local Open Scope R_scope.

(** The vector of [n] entries that is 1 at index [i] and 0 elsewhere. *)
Fixpoint unit_vector (n i : nat) : list R :=
  match n with
  | O => []
  | S n' =>
      match i with
      | O => 1 :: repeat 0 n'
      | S i' => 0 :: unit_vector n' i'
      end
  end.

End Residual.

(** ** [platform_t::DeviceConfig] (libs/core/platformDeviceConfig.cpp) *)

Module Platform.
Import String Ascii.
Local Open Scope string_scope.

(** [std::to_string(int)]: the decimal numeral, with a minus sign for a
    negative number. *)
Definition to_string (z : Z) : string :=
  DecimalString.NilZero.string_of_int (Z.to_int z).

(** The one-character string of a double quote. *)
Definition dquote : string := String (ascii_of_nat 34) EmptyString.

(** [std::string::pop_back]: the string without its last character (on the
    empty string, undefined in C++ and not reached here). *)
Fixpoint pop_back (s : string) : string :=
  match s with
  | EmptyString => EmptyString
  | String _ EmptyString => EmptyString
  | String c rest => String c (pop_back rest)
  end.

(** The loops of lines 45-50: [for (n = first; trips left; n++)
    if (!strcmp(hostname, hostnames + n*MPI_MAX_PROCESSOR_NAME)) count++].
    Slot [n] of the gathered buffer is the name of rank [n]. *)
Fixpoint count_same (hostname : string) (hostnames : list string)
    (n : nat) (trips : nat) (count : Z) : Z :=
  match trips with
  | O => count
  | S trips' =>
      count_same hostname hostnames (S n) trips'
        (if String.eqb hostname (nth n hostnames "") then count + 1
         else count)
  end.

(** [hostname = hostnames + rank*MPI_MAX_PROCESSOR_NAME]. *)
Definition hostname_of (rank : Z) (hostnames : list string) : string :=
  nth (Z.to_nat rank) hostnames "".

Definition localRank (rank : Z) (hostnames : list string) : Z :=
  count_same (hostname_of rank hostnames) hostnames 0 (Z.to_nat rank) 0.

Definition localSize (rank size : Z) (hostnames : list string) : Z :=
  count_same (hostname_of rank hostnames) hostnames 0 (Z.to_nat size) 0.

(** What a pipe opened with [popen] gives to the one [fgets]. *)
Inductive pipe :=
| popen_failed
| fgets_failed
| line (text : string).

(** What [DeviceConfig] is run in. *)
Record env_t := {
  rank : Z;
  size : Z;
  hostnames : list string;
  pipeCores : pipe;
  pipeSockets : pipe;
  OMP_NUM_THREADS : option string;
  HIPBONE_CACHE_DIR : option string
}.

(** What it leaves: the string given to [device.setup], the count given to
    [omp_set_num_threads], the directory given to [setOccaCacheDir], and
    the warnings printed on the way. *)
Record config := {
  setup_mode : string;
  omp_threads : Z;
  occaCacheDir : string;
  warnings : list string
}.

(** How a call ends: in [HIPBONE_ABORT] with its message, in an exception
    that nothing catches ([std::stoi] throws, and [DeviceConfig] has no
    handler), or at its last line. *)
Inductive outcome :=
| Abort (message : string)
| Uncaught_exception
| Configured (c : config).

Section DeviceConfig.
(** The collaborators that are not among the sources: the settings
    ([compareSetting(name, token)], [getSetting(name, value)]),
    [occa::getDeviceCount(mode)], [std::stoi] and the macro [HIPBONE_DIR].
    [std::stoi] returns an [int] or throws ([std::invalid_argument] on a
    text that does not start with a numeral, [std::out_of_range] on a
    numeral that is no [int]): [stoi_throws s] says that it throws on [s],
    and [stoi s] is what it returns when it does not. *)
Variable compareSetting : string -> string -> bool.
Variable getSetting : string -> Z.
Variable getDeviceCount : string -> Z.
Variable stoi : string -> Z.
Variable stoi_throws : string -> bool.
Variable HIPBONE_DIR : string.

(** Lines 52-56. *)
Definition platform_number : Z :=
  if compareSetting "THREAD MODEL" "OpenCL" then getSetting "PLATFORM NUMBER"
  else 0.

(** Lines 59-75. *)
Definition base_mode (plat : Z) : string :=
  if compareSetting "THREAD MODEL" "CUDA" then "{mode: 'CUDA'}"
  else if compareSetting "THREAD MODEL" "HIP" then "{mode: 'HIP'}"
  else if compareSetting "THREAD MODEL" "OpenCL" then
    "{mode: 'OpenCL', platform_id : " ++ to_string plat ++ "}"
  else if compareSetting "THREAD MODEL" "OpenMP" then "{mode: 'OpenMP'}"
  else "{mode: 'Serial'}".

(** The test of line 78-80. *)
Definition takes_device_id : bool :=
  compareSetting "THREAD MODEL" "CUDA"
  || compareSetting "THREAD MODEL" "HIP"
  || compareSetting "THREAD MODEL" "OpenCL".

Definition device_warning (rank device : Z) (hostname : string) : string :=
  "Rank " ++ to_string rank ++ " oversubscribing device " ++ to_string device
  ++ " on node " ++ dquote ++ hostname ++ dquote.

(** Lines 82-96: the device number and the warning, if any. *)
Definition choose_device (rank size lRank : Z) (hostname mode : string)
    : Z * list string :=
  if (size =? 1)%Z then (getSetting "DEVICE NUMBER", [])
  else
    let device_id := lRank in
    let deviceCount := getDeviceCount mode in
    if (deviceCount >? 0) && (lRank >=? deviceCount) then
      (Z.rem device_id deviceCount,
       [device_warning rank (Z.rem device_id deviceCount) hostname])
    else (device_id, []).

(** Lines 98-100. *)
Definition add_device_id (mode : string) (device_id : Z) : string :=
  pop_back mode ++ ", device_id: " ++ to_string device_id ++ "}".

(** Lines 52-101. *)
Definition device_mode (rank size lRank : Z) (hostname : string)
    : string * list string :=
  let mode := base_mode platform_number in
  if takes_device_id then
    let '(device_id, w) := choose_device rank size lRank hostname mode in
    (add_device_id mode device_id, w)
  else (mode, []).

(** [std::max(NcoresPerNode/localSize, 1)]. *)
Definition even_share (NcoresPerNode lSize : Z) : Z :=
  Z.max (Z.quot NcoresPerNode lSize) 1.

(** Lines 131-144. *)
Definition choose_threads (NcoresPerNode lSize : Z)
    (ompEnvVar : option string) : Z :=
  match ompEnvVar with
  | None => even_share NcoresPerNode lSize
  | Some ompNumThreads =>
      if Nat.eqb (String.length ompNumThreads) 0
      then even_share NcoresPerNode lSize
      else stoi ompNumThreads
  end.

(** Whether line 142 is reached and throws. *)
Definition threads_throw (ompEnvVar : option string) : bool :=
  match ompEnvVar with
  | None => false
  | Some ompNumThreads =>
      if Nat.eqb (String.length ompNumThreads) 0 then false
      else stoi_throws ompNumThreads
  end.

Definition cpu_warning (rank : Z) (hostname : string) : string :=
  "Rank " ++ to_string rank ++ " oversubscribing CPU on node " ++ dquote
  ++ hostname ++ dquote.

(** Lines 145-149. *)
Definition threads_warning (rank Nthreads lSize NcoresPerNode : Z)
    (hostname : string) : list string :=
  if Nthreads * lSize >? NcoresPerNode then [cpu_warning rank hostname]
  else [].

(** Lines 160-174. *)
Definition choose_cache_dir (cacheEnvVar : option string) : string :=
  match cacheEnvVar with
  | None => HIPBONE_DIR ++ "/.occa"
  | Some dir =>
      if Nat.eqb (String.length dir) 0 then HIPBONE_DIR ++ "/.occa" else dir
  end.

(** [platform_t::DeviceConfig], lines 31-179, without [LIBP_DEBUG], in the
    order of the source: both pipes are opened, then the core count is read
    and converted (line 115) before the socket pipe is read (line 117).
    [NcoresPerNode] is a product of two [int]s.  An abort or an uncaught
    exception ends the process: the outcome then does not hold the warnings
    printed before it. *)
Definition DeviceConfig (e : env_t) : outcome :=
  let hostname := hostname_of (rank e) (hostnames e) in
  let lRank := localRank (rank e) (hostnames e) in
  let lSize := localSize (rank e) (size e) (hostnames e) in
  let '(mode, w_device) := device_mode (rank e) (size e) lRank hostname in
  match pipeCores e, pipeSockets e with
  | popen_failed, _ | _, popen_failed => Abort "popen() failed!"
  | fgets_failed, _ => Abort "Error reading core count"
  | line cores, sockets =>
      if stoi_throws cores then Uncaught_exception
      else
        let Ncores := stoi cores in
        match sockets with
        | line sockets_text =>
            if stoi_throws sockets_text then Uncaught_exception
            else
              let Nsockets := stoi sockets_text in
              let NcoresPerNode := CInt.mul Ncores Nsockets in
              if threads_throw (OMP_NUM_THREADS e) then Uncaught_exception
              else
                let Nthreads :=
                  choose_threads NcoresPerNode lSize (OMP_NUM_THREADS e) in
                Configured
                  {| setup_mode := mode;
                     omp_threads := Nthreads;
                     occaCacheDir := choose_cache_dir (HIPBONE_CACHE_DIR e);
                     warnings :=
                       w_device
                       ++ threads_warning (rank e) Nthreads lSize
                            NcoresPerNode hostname |}
        | _ => Abort "Error reading core count"
        end
  end.

End DeviceConfig.

(** Sample collaborators: a settings table with one thread model, four
    devices per node, and a decimal [std::stoi]. *)
Definition sample_compareSetting (model : string) (name token : string)
    : bool :=
  String.eqb name "THREAD MODEL" && String.eqb token model.

Definition sample_getSetting (name : string) : Z := 0.

Definition sample_getDeviceCount (mode : string) : Z := 4.

(** [std::stoi] in base 10: white space is skipped, a sign is taken, then
    the digits up to the first character that is none; what follows is
    ignored.  No digit, or a number that is no [int]: it throws. *)
Definition is_space (c : ascii) : bool :=
  let n := nat_of_ascii c in
  Nat.eqb n 32 || (Nat.leb 9 n && Nat.leb n 13).

Definition digit_of (c : ascii) : option Z :=
  let n := Z.of_nat (nat_of_ascii c) in
  if (48 <=? n)%Z && (n <=? 57)%Z then Some (n - 48)%Z else None.

Fixpoint skip_spaces (s : string) : string :=
  match s with
  | String c rest => if is_space c then skip_spaces rest else s
  | EmptyString => s
  end.

Fixpoint read_digits (s : string) (acc : option Z) : option Z :=
  match s with
  | String c rest =>
      match digit_of c with
      | Some d =>
          read_digits rest
            (Some (10 * match acc with Some a => a | None => 0 end + d)%Z)
      | None => acc
      end
  | EmptyString => acc
  end.

Definition read_int (s : string) : option Z :=
  let s := skip_spaces s in
  let '(negative, digits) :=
    match s with
    | String c rest =>
        if Ascii.eqb c "-" then (true, rest)
        else if Ascii.eqb c "+" then (false, rest)
        else (false, s)
    | EmptyString => (false, s)
    end in
  match read_digits digits None with
  | Some v =>
      let v := if negative then (- v)%Z else v in
      if (CInt.INT_MIN <=? v)%Z && (v <=? CInt.INT_MAX)%Z then Some v
      else None
  | None => None
  end.

Definition sample_stoi (s : string) : Z :=
  match read_int s with
  | Some v => v
  | None => 0
  end.

Definition sample_stoi_throws (s : string) : bool :=
  match read_int s with
  | Some _ => false
  | None => true
  end.

(** The end of a line that [fgets] keeps. *)
Definition newline : string := String (ascii_of_nat 10) EmptyString.

(** Six ranks on two nodes; rank 4 is the third rank on node [a]. *)
Definition sample_env : env_t :=
  {| rank := 4; size := 6;
     hostnames := ["a"; "b"; "a"; "b"; "a"; "b"];
     pipeCores := line ("8" ++ newline);
     pipeSockets := line ("2" ++ newline);
     OMP_NUM_THREADS := None; HIPBONE_CACHE_DIR := Some "" |}.

(** The same node when [lscpu] prints no core count: [grep] finds nothing
    and the one line read is not a numeral. *)
Definition sample_env_no_count : env_t :=
  {| rank := 4; size := 6;
     hostnames := ["a"; "b"; "a"; "b"; "a"; "b"];
     pipeCores := line newline;
     pipeSockets := fgets_failed;
     OMP_NUM_THREADS := None; HIPBONE_CACHE_DIR := Some "" |}.

Definition sample_DeviceConfig (e : env_t) : outcome :=
  DeviceConfig (sample_compareSetting "HIP") sample_getSetting
    sample_getDeviceCount sample_stoi sample_stoi_throws "/opt/hipBone" e.

End Platform.

(** * Part II: the properties *)

(** ** Buffers *)

Section DeviceFacts.
Import Device.
Context {B : Type}.
Implicit Types (st : @store B) (l : list B).

Lemma store_set_same st h v : store_set st h v h = v.
Proof. unfold store_set. now rewrite Nat.eqb_refl. Qed.

Lemma store_set_other st h h' v :
  h' <> h -> store_set st h v h' = st h'.
Proof.
  intros Hne. unfold store_set.
  destruct (Nat.eqb_spec h' h); [contradiction | reflexivity].
Qed.

Lemma list_set_length l i x : length (list_set l i x) = length l.
Proof.
  revert i; induction l as [|h t IH]; intros [|i]; simpl; auto.
Qed.

Lemma list_set_nth_same l i x :
  (i < length l)%nat -> nth_error (list_set l i x) i = Some x.
Proof.
  revert i; induction l as [|h t IH]; intros [|i] Hi; simpl in *;
    try lia; auto.
  apply IH; lia.
Qed.

Lemma list_set_nth_other l i j x :
  i <> j -> nth_error (list_set l i x) j = nth_error l j.
Proof.
  revert i j; induction l as [|h t IH]; intros [|i] [|j] Hne; simpl;
    auto; try congruence.
Qed.

Lemma buf_set_length l i x : length (buf_set l i x) = length l.
Proof.
  unfold buf_set. destruct (i <? 0); auto using list_set_length.
Qed.

Lemma buf_set_nth_same l i x :
  0 <= i < Z.of_nat (length l) ->
  nth_error (buf_set l i x) (Z.to_nat i) = Some x.
Proof.
  intros Hi. unfold buf_set.
  destruct (Z.ltb_spec i 0); [lia|].
  apply list_set_nth_same. lia.
Qed.

Lemma buf_set_nth_other l i j x :
  i <> Z.of_nat j -> nth_error (buf_set l i x) j = nth_error l j.
Proof.
  intros Hne. unfold buf_set.
  destruct (Z.ltb_spec i 0); [reflexivity|].
  apply list_set_nth_other. lia.
Qed.

End DeviceFacts.

(** ** The local operator: which launches are issued, on which elements *)

(** Inside the range of [int] nothing wraps. *)
Lemma wrap_in_range (z : Z) : CInt.in_range z -> CInt.wrap z = z.
Proof.
  unfold CInt.in_range, CInt.INT_MIN, CInt.INT_MAX, CInt.wrap. intros Hz.
  rewrite Z.mod_small by lia. lia.
Qed.

Lemma wrap_range (z : Z) : CInt.in_range (CInt.wrap z).
Proof.
  unfold CInt.in_range, CInt.INT_MIN, CInt.INT_MAX, CInt.wrap.
  pose proof (Z.mod_pos_bound (z + 2147483648) 4294967296 ltac:(lia)). lia.
Qed.

(** [(n+1)/2] is the rest [n - n/2] as long as [n+1] is an [int]. *)
Lemma half_counts (n : Z) :
  0 <= n < CInt.INT_MAX ->
  Z.quot (CInt.add n 1) 2 = n - Z.quot n 2 /\ 0 <= Z.quot n 2 <= n.
Proof.
  intros Hn. unfold CInt.add.
  rewrite wrap_in_range
    by (unfold CInt.in_range, CInt.INT_MIN, CInt.INT_MAX in *; lia).
  rewrite !Z.quot_div_nonneg by lia.
  split; Z.div_mod_to_equations; lia.
Qed.

Section LocalOperatorFacts.
Import Device LocalOp.
Context {B G Dm Lam : Type}.
Variable sizeof_dlong : Z.
Variable kernel : Z -> list Z -> G -> Dm -> Lam -> list B -> list B -> list B.

Abbreviation hipBone_t := (LocalOp.hipBone_t G Dm Lam).
Abbreviation device := (LocalOp.device B).
Abbreviation half1 := (dispatch_localHalf1 kernel).
Abbreviation globl := (dispatch_global kernel).
Abbreviation half2 := (dispatch_localHalf2 sizeof_dlong kernel).
Abbreviation LocalOperator := (LocalOp.LocalOperator sizeof_dlong kernel).
Abbreviation l_half1 := (launch_half1).
Abbreviation l_global := (launch_global).
Abbreviation l_half2 := (launch_half2 sizeof_dlong).

Implicit Types (hb : hipBone_t) (d : device).

Lemma LocalOperator_launches hb o_qL o_Aq d :
  launches (LocalOperator hb o_qL o_Aq d) =
  launches d
  ++ when_nonzero (k_Nelements (l_half1 hb o_qL)) (l_half1 hb o_qL)
  ++ when_nonzero (k_Nelements (l_global hb o_qL)) (l_global hb o_qL)
  ++ when_nonzero (k_Nelements (l_half2 hb o_qL)) (l_half2 hb o_qL).
Proof.
  unfold LocalOp.LocalOperator, dispatch_localHalf2, dispatch_global,
    dispatch_localHalf1, when_nonzero, launch_half1, launch_global,
    launch_half2; cbn [k_Nelements].
  destruct (Z.quot (NlocalGatherElements (mesh hb)) 2 =? 0);
    destruct (NglobalGatherElements (mesh hb) =? 0);
    destruct (Z.quot (CInt.add (NlocalGatherElements (mesh hb)) 1) 2 =? 0);
    cbn [launches run_localOperatorKernel];
    rewrite <- ?app_assoc; cbn [app]; rewrite ?app_nil_r; reflexivity.
Qed.

Lemma when_nonzero_nonzero (l : launch) :
  Forall (fun k => k_Nelements k <> 0) (when_nonzero (k_Nelements l) l).
Proof.
  unfold when_nonzero.
  destruct (Z.eqb_spec (k_Nelements l) 0); repeat constructor; assumption.
Qed.

Lemma occa_plus_elements (l : list Z) (k : Z) :
  0 < sizeof_dlong ->
  occa_plus sizeof_dlong l (k * sizeof_dlong) = skipn (Z.to_nat k) l.
Proof.
  intros Hs. unfold occa_plus. rewrite Z.quot_mul by lia. reflexivity.
Qed.

Lemma when_nonzero_elements (l : launch) :
  dispatched_elements (when_nonzero (k_Nelements l) l) = launch_elements l.
Proof.
  unfold when_nonzero, dispatched_elements.
  destruct (Z.eqb_spec (k_Nelements l) 0) as [E|E]; cbn.
  - unfold launch_elements. rewrite E. reflexivity.
  - apply app_nil_r.
Qed.

Lemma dispatched_elements_app (l1 l2 : list launch) :
  dispatched_elements (l1 ++ l2)
  = dispatched_elements l1 ++ dispatched_elements l2.
Proof. apply flat_map_app. Qed.

(** The elements of the three launches, in the order of issue: the first
    half of the local list, the global list, the rest of the local list. *)
Lemma three_launch_elements hb o_qL :
  0 < sizeof_dlong -> mesh_wf (mesh hb) ->
  NlocalGatherElements (mesh hb) < CInt.INT_MAX ->
  launch_elements (l_half1 hb o_qL)
  ++ launch_elements (l_global hb o_qL)
  ++ launch_elements (l_half2 hb o_qL)
  = firstn (Z.to_nat (Z.quot (NlocalGatherElements (mesh hb)) 2))
      (o_localGatherElementList (mesh hb))
    ++ o_globalGatherElementList (mesh hb)
    ++ skipn (Z.to_nat (Z.quot (NlocalGatherElements (mesh hb)) 2))
         (o_localGatherElementList (mesh hb)).
Proof.
  intros Hs [Hl Hg] Hmax.
  unfold launch_elements, launch_half1, launch_global, launch_half2;
    cbn [k_Nelements k_elementList].
  assert (Hn : 0 <= NlocalGatherElements (mesh hb) < CInt.INT_MAX)
    by (split; [rewrite <- Hl; lia | assumption]).
  destruct (half_counts _ Hn) as [Hh2 Hh1].
  rewrite occa_plus_elements by assumption.
  apply f_equal. apply f_equal2.
  - rewrite <- Hg, Nat2Z.id. apply firstn_all.
  - apply firstn_all2. rewrite length_skipn. lia.
Qed.

Lemma halves_permutation (l g : list Z) (h : nat) :
  Permutation (firstn h l ++ g ++ skipn h l) (l ++ g).
Proof.
  rewrite <- (firstn_skipn h l) at 3. rewrite <- app_assoc.
  apply Permutation_app_head, Permutation_app_comm.
Qed.

(** C7. Each of the three dispatches of LocalOperator is guarded by its
    element count: a dispatch whose count is zero returns the device as it
    found it (no launch is recorded, no buffer is written), and the
    launches one call adds are exactly those of the dispatches whose count
    is not zero, so no launch with a zero count is ever issued. *)
Theorem LocalOperator_zero_count_dispatch hb o_qL o_Aq d :
  (Z.quot (NlocalGatherElements (mesh hb)) 2 = 0 -> half1 hb o_qL d = d)
  /\ (NglobalGatherElements (mesh hb) = 0 -> globl hb o_qL d = d)
  /\ (Z.quot (CInt.add (NlocalGatherElements (mesh hb)) 1) 2 = 0 ->
      half2 hb o_qL d = d)
  /\ (exists issued,
        launches (LocalOperator hb o_qL o_Aq d) = launches d ++ issued
        /\ issued =
           when_nonzero (Z.quot (NlocalGatherElements (mesh hb)) 2)
             (l_half1 hb o_qL)
           ++ when_nonzero (NglobalGatherElements (mesh hb))
                (l_global hb o_qL)
           ++ when_nonzero
                (Z.quot (CInt.add (NlocalGatherElements (mesh hb)) 1) 2)
                (l_half2 hb o_qL)
        /\ Forall (fun k => k_Nelements k <> 0) issued).
Proof.
  repeat split.
  - intros E. unfold dispatch_localHalf1. now rewrite E.
  - intros E. unfold dispatch_global. now rewrite E.
  - intros E. unfold dispatch_localHalf2. now rewrite E.
  - eexists. split; [apply LocalOperator_launches|]. split; [reflexivity|].
    repeat (apply Forall_app; split); apply when_nonzero_nonzero.
Qed.

(** C4. For a mesh whose counts are the lengths of its lists and whose
    local-element count is below INT_MAX (so for every count 0, 1, 2, ...,
    odd or even, for which count + 1 is an int), the launches of one call
    work on: the first count/2 entries of the local list (from offset 0),
    the global list, and count - count/2 entries of the local list from
    entry count/2 on.  Together these are the elements of the mesh, each as
    often as the mesh lists it: no element is left out or worked on twice. *)
Theorem LocalOperator_partition_coverage hb o_qL o_Aq d :
  0 < sizeof_dlong -> mesh_wf (mesh hb) ->
  NlocalGatherElements (mesh hb) < CInt.INT_MAX ->
  let n := NlocalGatherElements (mesh hb) in
  let local := o_localGatherElementList (mesh hb) in
  k_Nelements (l_half2 hb o_qL) = n - Z.quot n 2
  /\ k_elementList (l_half2 hb o_qL) = skipn (Z.to_nat (Z.quot n 2)) local
  /\ launch_elements (l_half1 hb o_qL) = firstn (Z.to_nat (Z.quot n 2)) local
  /\ launch_elements (l_half2 hb o_qL) = skipn (Z.to_nat (Z.quot n 2)) local
  /\ launch_elements (l_global hb o_qL) = o_globalGatherElementList (mesh hb)
  /\ exists issued,
       launches (LocalOperator hb o_qL o_Aq d) = launches d ++ issued
       /\ Permutation (dispatched_elements issued) (mesh_elements (mesh hb))
       /\ (forall e, count_occ Z.eq_dec (dispatched_elements issued) e
                     = count_occ Z.eq_dec (mesh_elements (mesh hb)) e)
       /\ (NoDup (mesh_elements (mesh hb)) ->
           NoDup (dispatched_elements issued)).
Proof.
  intros Hs Hwf Hmax; cbv zeta.
  pose proof (three_launch_elements hb o_qL Hs Hwf Hmax) as H3.
  destruct Hwf as [Hl Hg].
  assert (Hn : 0 <= NlocalGatherElements (mesh hb) < CInt.INT_MAX)
    by (split; [rewrite <- Hl; lia | assumption]).
  destruct (half_counts _ Hn) as [Hh2 Hh1].
  assert (E2 : k_elementList (l_half2 hb o_qL)
               = skipn (Z.to_nat (Z.quot (NlocalGatherElements (mesh hb)) 2))
                   (o_localGatherElementList (mesh hb))).
  { cbn [launch_half2 k_elementList]. now apply occa_plus_elements. }
  assert (P : Permutation
                (dispatched_elements
                   (when_nonzero (k_Nelements (l_half1 hb o_qL))
                      (l_half1 hb o_qL)
                    ++ when_nonzero (k_Nelements (l_global hb o_qL))
                         (l_global hb o_qL)
                    ++ when_nonzero (k_Nelements (l_half2 hb o_qL))
                         (l_half2 hb o_qL)))
                (mesh_elements (mesh hb))).
  { rewrite !dispatched_elements_app, !when_nonzero_elements, H3.
    apply halves_permutation. }
  split; [exact Hh2|]. split; [exact E2|].
  split; [reflexivity|].
  split.
  { unfold launch_elements. rewrite E2. cbn [launch_half2 k_Nelements].
    apply firstn_all2. rewrite length_skipn. lia. }
  split.
  { unfold launch_elements; cbn [launch_global k_Nelements k_elementList].
    rewrite <- Hg, Nat2Z.id. apply firstn_all. }
  eexists. split; [apply LocalOperator_launches|].
  split; [exact P|]. split.
  - intros e. apply Permutation_count_occ. exact P. 
  - intros ND. eapply Permutation_NoDup; [symmetry; exact P | exact ND].
Qed.

(** At INT_MAX local elements [count + 1] wraps: the second half is launched
    with a negative count and works on nothing, so the launches of the call
    do not reach every element. *)
Lemma second_half_at_INT_MAX hb o_qL :
  NlocalGatherElements (mesh hb) = CInt.INT_MAX ->
  k_Nelements (l_half2 hb o_qL) = -1073741824
  /\ launch_elements (l_half2 hb o_qL) = [].
Proof.
  intros E. unfold launch_elements, launch_half2;
    cbn [k_Nelements k_elementList].
  rewrite E. split; reflexivity.
Qed.

Lemma coverage_lost_at_INT_MAX hb o_qL o_Aq d issued :
  mesh_wf (mesh hb) -> NlocalGatherElements (mesh hb) = CInt.INT_MAX ->
  launches (LocalOperator hb o_qL o_Aq d) = launches d ++ issued ->
  (length (dispatched_elements issued)
   < length (mesh_elements (mesh hb)))%nat.
Proof.
  intros [Hl Hg] E Hi.
  rewrite LocalOperator_launches in Hi. apply app_inv_head in Hi. subst issued.
  rewrite !dispatched_elements_app, !when_nonzero_elements.
  rewrite (proj2 (second_half_at_INT_MAX hb o_qL E)).
  unfold mesh_elements. rewrite !length_app. cbn [length].
  pose proof (firstn_le_length
                (Z.to_nat (k_Nelements (l_global hb o_qL)))
                (k_elementList (l_global hb o_qL))) as H1.
  pose proof (firstn_le_length
                (Z.to_nat (k_Nelements (l_half1 hb o_qL)))
                (k_elementList (l_half1 hb o_qL))) as H2.
  assert (H3 : (length (launch_elements (l_half1 hb o_qL))
                <= Z.to_nat (k_Nelements (l_half1 hb o_qL)))%nat).
  { unfold launch_elements. rewrite length_firstn. apply Nat.le_min_l. }
  unfold launch_elements in *.
  cbn [launch_half1 launch_global k_Nelements k_elementList] in *.
  rewrite E in *.
  change (Z.quot CInt.INT_MAX 2) with 1073741823 in *.
  unfold CInt.INT_MAX in *. lia.
Qed.

(** Every launch is given the member buffer: a buffer other than [o_AqL]
    holds after the call what it held before, whatever the kernel does. *)
Lemma LocalOperator_frame hb o_qL o_Aq d (h : handle) :
  h <> o_AqL hb -> mem (LocalOperator hb o_qL o_Aq d) h = mem d h.
Proof.
  intros Hne.
  unfold LocalOp.LocalOperator, dispatch_localHalf2, dispatch_global,
    dispatch_localHalf1.
  destruct (Z.quot (NlocalGatherElements (mesh hb)) 2 =? 0);
    destruct (NglobalGatherElements (mesh hb) =? 0);
    destruct (Z.quot (CInt.add (NlocalGatherElements (mesh hb)) 1) 2 =? 0);
    cbn [mem run_localOperatorKernel];
    rewrite ?store_set_other by assumption; reflexivity.
Qed.

End LocalOperatorFacts.

(** ** The local operator: what it leaves in which buffer *)

Section ElementwiseFacts.
Import Device LocalOp.
Context {B G Dm Lam : Type}.
Variable sizeof_dlong : Z.
Variable op : G -> Dm -> Lam -> Z -> list B -> B.

Abbreviation W := (write_elements op).
Abbreviation run_elementwise :=
  (run_localOperatorKernel (elementwise_kernel op)).

Implicit Types (g : G) (D : Dm) (lam : Lam) (q Aq : list B) (es : list Z).

Lemma write_elements_app es1 es2 g D lam q Aq :
  W (es1 ++ es2) g D lam q Aq = W es2 g D lam q (W es1 g D lam q Aq).
Proof.
  revert Aq; induction es1 as [|e es IH]; intros Aq; simpl; auto.
Qed.

Lemma write_elements_length es g D lam q Aq :
  length (W es g D lam q Aq) = length Aq.
Proof.
  revert Aq; induction es as [|e es IH]; intros Aq; simpl; auto.
  rewrite IH. apply buf_set_length.
Qed.

Lemma write_elements_untouched es g D lam q Aq (i : nat) :
  ~ In (Z.of_nat i) es ->
  nth_error (W es g D lam q Aq) i = nth_error Aq i.
Proof.
  revert Aq; induction es as [|e es IH]; intros Aq Hi; simpl; auto.
  rewrite IH by (intros Hin; apply Hi; now right).
  apply buf_set_nth_other. intros E. apply Hi. now left.
Qed.

Lemma write_elements_written es g D lam q Aq (e : Z) :
  In e es -> 0 <= e < Z.of_nat (length Aq) ->
  nth_error (W es g D lam q Aq) (Z.to_nat e) = Some (op g D lam e q).
Proof.
  revert Aq; induction es as [|e' es IH]; intros Aq Hin He; simpl.
  - contradiction.
  - destruct (in_dec Z.eq_dec e es) as [Hes|Hes].
    + apply IH; [assumption | now rewrite buf_set_length].
    + destruct Hin as [->|Hin]; [|contradiction].
      rewrite write_elements_untouched by (rewrite Z2Nat.id by lia; exact Hes).
      now apply buf_set_nth_same.
Qed.

Lemma guarded_run_frame
    (kernel : Z -> list Z -> G -> Dm -> Lam -> list B -> list B -> list B)
    (c : Z) es g D lam (o_q o_Aq h : handle) (d : LocalOp.device B) :
  h <> o_Aq ->
  mem (if c =? 0 then d
       else run_localOperatorKernel kernel c es g D lam o_q o_Aq d) h
  = mem d h.
Proof.
  intros Hne. destruct (c =? 0); [reflexivity|].
  cbn [mem run_localOperatorKernel]. now apply store_set_other.
Qed.

Lemma guarded_run_elementwise (c : Z) es g D lam (o_q o_Aq : handle)
    (d : LocalOp.device B) :
  mem (if c =? 0 then d else run_elementwise c es g D lam o_q o_Aq d) o_Aq
  = W (firstn (Z.to_nat c) es) g D lam (mem d o_q) (mem d o_Aq).
Proof.
  destruct (Z.eqb_spec c 0) as [->|Hc]; [reflexivity|].
  cbn [mem run_localOperatorKernel]. rewrite store_set_same. reflexivity.
Qed.

(** With the element-wise kernel, what one call leaves in [o_AqL]: the
    blocks of the three launches' elements, written in the order of issue
    from the input vector as it was at the call. *)
Lemma LocalOperator_elementwise_mem (hb : LocalOp.hipBone_t G Dm Lam)
    (o_qL o_Aq : handle) (d : LocalOp.device B) :
  o_qL <> o_AqL hb ->
  mem (LocalOp.LocalOperator sizeof_dlong (elementwise_kernel op)
         hb o_qL o_Aq d) (o_AqL hb)
  = W (launch_elements (launch_half1 hb o_qL)
       ++ launch_elements (launch_global hb o_qL)
       ++ launch_elements (launch_half2 sizeof_dlong hb o_qL))
      (o_ggeo (mesh hb)) (o_D (mesh hb)) (lambda hb)
      (mem d o_qL) (mem d (o_AqL hb)).
Proof.
  intros Hne.
  unfold LocalOp.LocalOperator, dispatch_localHalf2, dispatch_global,
    dispatch_localHalf1; cbv zeta.
  rewrite guarded_run_elementwise, !guarded_run_frame by assumption.
  rewrite guarded_run_elementwise, !guarded_run_frame by assumption.
  rewrite guarded_run_elementwise.
  rewrite !write_elements_app. reflexivity.
Qed.

(** Whatever the counts, a launch works on entries of the list it was
    given, so the launches of a call work on elements of the mesh only. *)
Lemma firstn_incl (l : list Z) (k : nat) (e : Z) :
  In e (firstn k l) -> In e l.
Proof.
  intros He. rewrite <- (firstn_skipn k l). apply in_or_app. now left.
Qed.

Lemma skipn_incl (l : list Z) (k : nat) (e : Z) :
  In e (skipn k l) -> In e l.
Proof.
  intros He. rewrite <- (firstn_skipn k l). apply in_or_app. now right.
Qed.

Lemma launched_elements_of_mesh (hb : LocalOp.hipBone_t G Dm Lam)
    (o_qL : handle) (e : Z) :
  In e (launch_elements (launch_half1 hb o_qL)
        ++ launch_elements (launch_global hb o_qL)
        ++ launch_elements (launch_half2 sizeof_dlong hb o_qL)) ->
  In e (mesh_elements (mesh hb)).
Proof.
  unfold launch_elements, launch_half1, launch_global, launch_half2,
    mesh_elements, occa_plus; cbn [k_Nelements k_elementList].
  intros He. apply in_or_app.
  apply in_app_or in He. destruct He as [He|He].
  - left. eapply firstn_incl; exact He.
  - apply in_app_or in He. destruct He as [He|He].
    + right. eapply firstn_incl; exact He.
    + left. eapply skipn_incl, firstn_incl; exact He.
Qed.

(** C1 (as amended). LocalOperator hands every launch the solver's member
    buffer [o_AqL] and never refers to its output argument [o_Aq].  For a
    well-formed mesh whose elements index into [o_AqL], and an input buffer
    other than [o_AqL], after the call: every buffer other than [o_AqL]
    (the argument [o_Aq] among them, unless it is [o_AqL] itself) is
    unchanged; [o_AqL] keeps its length, holds at every element of the mesh
    the element operator applied to the input vector (as long as the local
    count is below INT_MAX, so that the count of the second half,
    (count + 1)/2, is computed without overflow), and is unchanged at every
    other index. *)
Theorem LocalOperator_writes_member_o_AqL (hb : LocalOp.hipBone_t G Dm Lam)
    (o_qL o_Aq : handle) (d : LocalOp.device B) :
  0 < sizeof_dlong -> mesh_wf (mesh hb) -> o_qL <> o_AqL hb ->
  (forall e, In e (mesh_elements (mesh hb)) ->
             0 <= e < Z.of_nat (length (mem d (o_AqL hb)))) ->
  let d' := LocalOp.LocalOperator sizeof_dlong (elementwise_kernel op)
              hb o_qL o_Aq d in
  (forall h, h <> o_AqL hb -> mem d' h = mem d h)
  /\ (o_Aq <> o_AqL hb -> mem d' o_Aq = mem d o_Aq)
  /\ length (mem d' (o_AqL hb)) = length (mem d (o_AqL hb))
  /\ (NlocalGatherElements (mesh hb) < CInt.INT_MAX ->
      forall e, In e (mesh_elements (mesh hb)) ->
        nth_error (mem d' (o_AqL hb)) (Z.to_nat e)
        = Some (op (o_ggeo (mesh hb)) (o_D (mesh hb)) (lambda hb) e
                  (mem d o_qL)))
  /\ (forall i, ~ In (Z.of_nat i) (mesh_elements (mesh hb)) ->
        nth_error (mem d' (o_AqL hb)) i = nth_error (mem d (o_AqL hb)) i).
Proof.
  intros Hs Hwf Hq Hrange; cbv zeta.
  split; [intros h Hh; now apply LocalOperator_frame|].
  split; [intros Hh; now apply LocalOperator_frame|].
  rewrite LocalOperator_elementwise_mem by assumption.
  split; [apply write_elements_length|]. split.
  - intros Hmax e He. apply write_elements_written; [|now apply Hrange].
    rewrite (three_launch_elements sizeof_dlong hb o_qL Hs Hwf Hmax).
    eapply Permutation_in; [symmetry; apply halves_permutation | exact He].
  - intros i Hi. apply write_elements_untouched.
    intros Hin. apply Hi. now apply launched_elements_of_mesh in Hin.
Qed.

End ElementwiseFacts.

(** ** The local operator on the sample mesh *)

Section LocalOperatorSample.
Import Device LocalOp Sample.

Lemma mesh5_wf : mesh_wf mesh5.
Proof. split; reflexivity. Defined.

(** C1, as stated, fails: called with input buffer 0 and output buffer 1,
    LocalOperator leaves buffer 1 as it was (all zeros), which is not the
    operator image [2*q]; the image is in the member buffer 2. *)
Lemma LocalOperator_output_argument_untouched :
  let q := mem dev5 0%nat in
  let image := map (fun e => scale_op tt tt 2 e q) [0; 1; 2; 3; 4] in
  mem (LocalOperator5 0%nat 1%nat) 1%nat = mem dev5 1%nat
  /\ mem (LocalOperator5 0%nat 1%nat) 1%nat <> image
  /\ mem (LocalOperator5 0%nat 1%nat) 2%nat = image.
Proof.
  vm_compute. repeat split. discriminate.
Qed.

Lemma LocalOperator_writes_member_o_AqL_witness :
  mem (LocalOperator5 0%nat 1%nat) 1%nat = [0; 0; 0; 0; 0]
  /\ nth_error (mem (LocalOperator5 0%nat 1%nat) 2%nat) 3 = Some 8.
Proof.
  assert (Hrange : forall e, In e (mesh_elements (mesh hb5)) ->
             0 <= e < Z.of_nat (length (mem dev5 (o_AqL hb5)))).
  { intros e He. vm_compute in He.
    repeat (destruct He as [<-|He]; [vm_compute; split; congruence|]).
    contradiction. }
  destruct (LocalOperator_writes_member_o_AqL 4 scale_op hb5 0%nat 1%nat dev5
              eq_refl mesh5_wf (fun E => O_S _ E) Hrange)
    as (_ & Harg & _ & Himg & _).
  split.
  - exact (Harg (fun E => n_Sn _ E)).
  - apply (Himg eq_refl 3). vm_compute. tauto.
Defined.

Lemma mesh_max_wf : mesh_wf mesh_max.
Proof.
  unfold mesh_wf, mesh_max;
    cbn [NlocalGatherElements NglobalGatherElements
         o_localGatherElementList o_globalGatherElementList].
  split; [|reflexivity].
  rewrite length_map, length_seq. apply Z2Nat.id. unfold CInt.INT_MAX. lia.
Qed.

(** C4, as stated, fails: for the nonnegative count INT_MAX, on a mesh whose
    counts are the lengths of its lists, the second-half launch is not given
    count - count/2 = 1073741824 elements: count + 1 wraps around, the
    launch is issued with the count -1073741824 and works on no element, and
    the launches of the call leave elements of the mesh out. *)
Lemma LocalOperator_second_half_wraps_at_INT_MAX :
  let n := NlocalGatherElements (mesh hb_max) in
  let half2 := launch_half2 4 hb_max 0%nat in
  mesh_wf (mesh hb_max) /\ 0 <= n
  /\ n - Z.quot n 2 = 1073741824
  /\ k_Nelements half2 = -1073741824
  /\ k_Nelements half2 <> n - Z.quot n 2
  /\ launch_elements half2 = []
  /\ forall d issued,
       launches (LocalOperator 4 (elementwise_kernel scale_op)
                   hb_max 0%nat 1%nat d) = launches d ++ issued ->
       In half2 issued
       /\ ~ Permutation (dispatched_elements issued)
                        (mesh_elements (mesh hb_max)).
Proof.
  cbv zeta.
  destruct (second_half_at_INT_MAX 4 hb_max 0%nat eq_refl) as [Hc He].
  split; [exact mesh_max_wf|]. split; [discriminate|].
  split; [reflexivity|]. split; [exact Hc|].
  split; [rewrite Hc; discriminate|]. split; [exact He|].
  intros d issued Hi. split.
  - rewrite LocalOperator_launches in Hi. apply app_inv_head in Hi.
    subst issued. apply in_or_app; right. apply in_or_app; right.
    unfold when_nonzero. rewrite Hc. left. reflexivity.
  - intros P. apply Permutation_length in P.
    pose proof (coverage_lost_at_INT_MAX 4 (elementwise_kernel scale_op)
                  hb_max 0%nat 1%nat d issued mesh_max_wf eq_refl Hi).
    lia.
Qed.

Lemma LocalOperator_partition_coverage_witness :
  Permutation
    (dispatched_elements (launches (LocalOperator5 0%nat 1%nat)))
    [0; 2; 3; 1; 4].
Proof.
  destruct (LocalOperator_partition_coverage 4 (elementwise_kernel scale_op)
              hb5 0%nat 1%nat dev5 eq_refl mesh5_wf eq_refl)
    as (_ & _ & _ & _ & _ & issued & Hl & P & _).
  unfold LocalOperator5. rewrite Hl. exact P.
Defined.

Lemma LocalOperator_zero_count_dispatch_witness :
  dispatch_localHalf1 (elementwise_kernel scale_op) hb1 0%nat dev5 = dev5
  /\ dispatch_global (elementwise_kernel scale_op) hb1 0%nat dev5 = dev5
  /\ length (launches (LocalOperator 4 (elementwise_kernel scale_op)
                         hb1 0%nat 1%nat dev5)) = 1%nat.
Proof.
  destruct (LocalOperator_zero_count_dispatch 4 (elementwise_kernel scale_op)
              hb1 0%nat 1%nat dev5)
    as (H1 & Hg & _ & issued & Hl & Hi & _).
  split; [apply H1; reflexivity|]. split; [apply Hg; reflexivity|].
  rewrite Hl, Hi. reflexivity.
Defined.

End LocalOperatorSample.

(** ** The block count of the fused kernel *)

Lemma ceil_div_spec (n d : Z) :
  0 < d -> d * (CG.ceil_div n d - 1) < n <= d * CG.ceil_div n d.
Proof.
  intros Hd. unfold CG.ceil_div.
  destruct (Z.eqb_spec (n mod d) 0); Z.div_mod_to_equations; nia.
Qed.

(** The sum [N+CG_BLOCKSIZE-1] wraps to [N + 1023]. *)
Lemma UpdateCG_sum (N : Z) :
  CInt.sub (CInt.add N CG.CG_BLOCKSIZE) 1 = CInt.wrap (N + 1023).
Proof.
  unfold CInt.sub, CInt.add, CInt.wrap, CG.CG_BLOCKSIZE.
  Z.div_mod_to_equations; lia.
Qed.

Lemma UpdateCG_Nblocks_in_range (N : Z) :
  0 <= N <= CInt.INT_MAX - 1023 ->
  CG.UpdateCG_Nblocks N =
  if Z.quot (N + 1024 - 1) 1024 >? 1024 then 1024
  else Z.quot (N + 1024 - 1) 1024.
Proof.
  intros HN. unfold CG.UpdateCG_Nblocks. rewrite UpdateCG_sum.
  rewrite wrap_in_range
    by (unfold CInt.in_range, CInt.INT_MIN, CInt.INT_MAX in *; lia).
  replace (N + 1023) with (N + 1024 - 1) by lia. reflexivity.
Qed.

(** C8 (as amended). For every problem size 0 <= N <= INT_MAX - 1023 (the
    sizes for which N + 1024 - 1 is an int) the block count UpdateCG
    computes is min(ceil(N / 1024), 1024): never more than 1024, equal to
    ceil(N / 1024) up to 1024 blocks, and 1024 for every larger N. *)
Theorem UpdateCG_Nblocks_capped (N : Z) :
  0 <= N <= CInt.INT_MAX - 1023 ->
  CG.UpdateCG_Nblocks N = CG.spec_Nblocks N
  /\ CG.UpdateCG_Nblocks N <= 1024
  /\ (N <= 1024 * 1024 -> 1024 * (CG.UpdateCG_Nblocks N - 1) < N
                          /\ N <= 1024 * CG.UpdateCG_Nblocks N)
  /\ (1024 * 1024 < N -> CG.UpdateCG_Nblocks N = 1024).
Proof.
  intros HN.
  assert (E : CG.UpdateCG_Nblocks N = CG.spec_Nblocks N).
  { rewrite UpdateCG_Nblocks_in_range by assumption.
    unfold CG.spec_Nblocks, CG.ceil_div.
    rewrite Z.quot_div_nonneg by lia.
    destruct (Z.gtb_spec ((N + 1024 - 1) / 1024) 1024);
      destruct (Z.eqb_spec (N mod 1024) 0); Z.div_mod_to_equations; lia. }
  pose proof (ceil_div_spec N 1024 ltac:(lia)) as Hc.
  rewrite E. unfold CG.spec_Nblocks. repeat split; lia.
Qed.

(** C8, as stated, fails: for N = INT_MAX the sum N + 1024 - 1 wraps around
    and the block count UpdateCG computes is -2097151, not min(ceil(N /
    1024), 1024) = 1024; the same from N = INT_MAX - 1022 on. *)
Lemma UpdateCG_Nblocks_wraps_at_INT_MAX :
  CG.UpdateCG_Nblocks 2147483647 = -2097151
  /\ CG.spec_Nblocks 2147483647 = 1024
  /\ CG.UpdateCG_Nblocks 2147483647 <> CG.spec_Nblocks 2147483647
  /\ CG.UpdateCG_Nblocks (2147483647 - 1022) = -2097152.
Proof.
  vm_compute. repeat split. discriminate.
Qed.

Lemma UpdateCG_Nblocks_capped_witness :
  CG.UpdateCG_Nblocks 3000 = 3 /\ CG.UpdateCG_Nblocks 5000000 = 1024.
Proof.
  split.
  - exact (eq_trans
             (proj1 (UpdateCG_Nblocks_capped 3000
                       ltac:(unfold CInt.INT_MAX; lia)))
             eq_refl).
  - apply (UpdateCG_Nblocks_capped 5000000); unfold CInt.INT_MAX; lia.
Defined.

(** ** The solver, for any arithmetic *)

Section SolverFacts.
Import LinAlg CG.
Context {F : Type} `{Scalar F}.
Variable comm : F -> F.
Variable Operator : list F -> list F -> list F * list F.

Abbreviation cg_t := (CG.cg_t F).
Abbreviation solve_t := (CG.solve_t F).
Abbreviation Solve_init := (CG.Solve_init comm Operator).
Abbreviation cg_iteration := (CG.cg_iteration comm Operator).
Abbreviation cg_loop := (CG.cg_loop comm Operator).
Abbreviation Solve := (CG.Solve comm Operator).

Implicit Types (c : cg_t) (s : solve_t) (X Y : list F).

Lemma axpy_length n a X b Y : length (axpy n a X b Y) = length Y.
Proof.
  revert X Y; induction n as [|n IH]; intros [|x X] [|y Y]; simpl; auto.
Qed.

Lemma axpy_same_beyond n a X b Y : same_beyond n (axpy n a X b Y) Y.
Proof.
  revert X Y; induction n as [|n IH]; intros X Y i Hi;
    [destruct X, Y; reflexivity|].
  destruct X as [|x X], Y as [|y Y]; try reflexivity.
  destruct i as [|i]; [lia|]. simpl. apply IH. lia.
Qed.

Lemma update_r_length n X a Y : length (update_r n X a Y) = length Y.
Proof.
  revert X Y; induction n as [|n IH]; intros [|x X] [|y Y]; simpl; auto.
Qed.

Lemma update_r_same_beyond n X a Y : same_beyond n (update_r n X a Y) Y.
Proof.
  revert X Y; induction n as [|n IH]; intros X Y i Hi;
    [destruct X, Y; reflexivity|].
  destruct X as [|x X], Y as [|y Y]; try reflexivity.
  destruct i as [|i]; [lia|]. simpl. apply IH. lia.
Qed.

Lemma same_beyond_refl n X : same_beyond n X X.
Proof. intros i _. reflexivity. Qed.

Lemma same_beyond_trans n X Y Z :
  same_beyond n X Y -> same_beyond n Y Z -> same_beyond n X Z.
Proof. intros H1 H2 i Hi. rewrite H1, H2 by assumption. reflexivity. Qed.

Abbreviation guarded_iteration := (CG.guarded_iteration comm Operator).

Lemma cg_loop_exit fuel TOL iter s :
  fleb (s_rdotr s) TOL = true -> cg_loop fuel TOL iter s = (iter, s).
Proof.
  intros E. destruct fuel; simpl; [reflexivity | now rewrite E].
Qed.

Lemma cg_loop_succ fuel TOL iter s :
  cg_loop (S fuel) TOL iter s
  = guarded_iteration TOL (cg_loop fuel TOL iter s).
Proof.
  revert iter s; induction fuel as [|fuel IH]; intros iter s.
  - unfold CG.guarded_iteration; simpl.
    destruct (fleb (s_rdotr s) TOL); reflexivity.
  - change (cg_loop (S (S fuel)) TOL iter s)
      with (if fleb (s_rdotr s) TOL then (iter, s)
            else cg_loop (S fuel) TOL (iter + 1) (cg_iteration iter s)).
    change (cg_loop (S fuel) TOL iter s)
      with (if fleb (s_rdotr s) TOL then (iter, s)
            else cg_loop fuel TOL (iter + 1) (cg_iteration iter s)).
    destruct (fleb (s_rdotr s) TOL) eqn:E.
    + unfold CG.guarded_iteration; simpl. now rewrite E.
    + apply IH.
Qed.

(** The count [Solve] returns lies between 0 and [MAXIT]. *)
Lemma cg_loop_count fuel TOL iter s :
  iter <= fst (cg_loop fuel TOL iter s) <= iter + Z.of_nat fuel.
Proof.
  revert iter s; induction fuel as [|fuel IH]; intros iter s.
  - simpl. lia.
  - cbn [CG.cg_loop]. destruct (fleb (s_rdotr s) TOL).
    + simpl. lia.
    + specialize (IH (iter + 1) (cg_iteration iter s)). lia.
Qed.


Lemma UpdateCG_fields c alpha X Y :
  u_x (UpdateCG comm c alpha X Y) = solution_update c alpha X
  /\ u_r (UpdateCG comm c alpha X Y) = fst (residual_update c alpha Y)
  /\ u_rdotr (UpdateCG comm c alpha X Y)
     = comm (snd (residual_update c alpha Y))
  /\ o_p (u_cg (UpdateCG comm c alpha X Y)) = o_p c
  /\ o_Ap (u_cg (UpdateCG comm c alpha X Y)) = o_Ap c
  /\ N (u_cg (UpdateCG comm c alpha X Y)) = N c
  /\ Nhalo (u_cg (UpdateCG comm c alpha X Y)) = Nhalo c.
Proof. repeat split. Qed.

Lemma Solve_init_fields c X Y tol :
  let s0 := snd (Solve_init c X Y tol) in
  s_x s0 = fst (Operator X (o_Ap c))
  /\ o_Ap (s_cg s0) = snd (Operator X (o_Ap c))
  /\ o_p (s_cg s0) = o_p c
  /\ N (s_cg s0) = N c
  /\ s_r s0 = axpy (Z.to_nat (N c)) (fopp fone)
                (snd (Operator X (o_Ap c))) fone Y
  /\ s_rdotr s0 = fmul (norm2 comm (Z.to_nat (N c)) (s_r s0))
                    (norm2 comm (Z.to_nat (N c)) (s_r s0))
  /\ fst (Solve_init c X Y tol)
     = mymax (fmul (fmul tol tol) (s_rdotr s0)) (fmul tol tol).
Proof.
  unfold CG.Solve_init. destruct (Operator X (o_Ap c)) as [x1 Ap1].
  repeat split.
Qed.

Lemma Solve_unfold c X Y tol MAXIT :
  Solve c X Y tol MAXIT
  = cg_loop (Z.to_nat MAXIT) (fst (Solve_init c X Y tol)) 0
      (snd (Solve_init c X Y tol)).
Proof.
  unfold CG.Solve. destruct (CG.Solve_init _ _ _ _ _ _) as [TOL s0].
  reflexivity.
Qed.

(** What one trip of the loop body leaves, statement by statement. *)
Lemma cg_iteration_fields iter s :
  let c := s_cg s in
  let beta := if iter =? 0 then fzero else fdiv (s_rdotr s) (s_rdotr1 s) in
  let p := direction_update c (s_r s) beta in
  let p' := fst (Operator p (o_Ap c)) in
  let Ap := snd (Operator p (o_Ap c)) in
  let c' := with_vectors c p' Ap in
  let alpha := fdiv (s_rdotr s) (innerProd comm (Z.to_nat (N c)) p' Ap) in
  let s' := cg_iteration iter s in
  s_x s' = solution_update c' alpha (s_x s)
  /\ s_r s' = fst (residual_update c' alpha (s_r s))
  /\ s_rdotr s' = comm (snd (residual_update c' alpha (s_r s)))
  /\ o_p (s_cg s') = p'
  /\ o_Ap (s_cg s') = Ap
  /\ N (s_cg s') = N c
  /\ s_rdotr1 s' = s_rdotr s
  /\ s_beta s' = beta
  /\ s_alpha s' = alpha.
Proof.
  unfold CG.cg_iteration.
  destruct (Operator _ (o_Ap (s_cg s))) as [p' Ap].
  repeat split.
Qed.

Lemma cg_iteration_halo iter s :
  (forall q Aq, same_beyond (Z.to_nat (N (s_cg s))) (fst (Operator q Aq)) q) ->
  let s' := cg_iteration iter s in
  same_beyond (Z.to_nat (N (s_cg s))) (s_x s') (s_x s)
  /\ same_beyond (Z.to_nat (N (s_cg s))) (s_r s') (s_r s)
  /\ same_beyond (Z.to_nat (N (s_cg s))) (o_p (s_cg s')) (o_p (s_cg s))
  /\ N (s_cg s') = N (s_cg s).
Proof.
  intros HOp; cbv zeta.
  destruct (cg_iteration_fields iter s)
    as (Ex & Er & _ & Ep & _ & EN & _).
  rewrite Ex, Er, Ep, EN. repeat split.
  - apply axpy_same_beyond.
  - apply update_r_same_beyond.
  - eapply same_beyond_trans; [apply HOp | apply axpy_same_beyond].
Qed.

Lemma cg_loop_halo fuel TOL iter s :
  (forall q Aq, same_beyond (Z.to_nat (N (s_cg s))) (fst (Operator q Aq)) q) ->
  let s' := snd (cg_loop fuel TOL iter s) in
  same_beyond (Z.to_nat (N (s_cg s))) (s_x s') (s_x s)
  /\ same_beyond (Z.to_nat (N (s_cg s))) (s_r s') (s_r s)
  /\ same_beyond (Z.to_nat (N (s_cg s))) (o_p (s_cg s')) (o_p (s_cg s))
  /\ N (s_cg s') = N (s_cg s).
Proof.
  revert iter s; induction fuel as [|fuel IH]; intros iter s HOp; cbv zeta.
  - simpl. repeat split; apply same_beyond_refl.
  - cbn [CG.cg_loop]. destruct (fleb (s_rdotr s) TOL).
    + simpl. repeat split; apply same_beyond_refl.
    + destruct (cg_iteration_halo iter s HOp) as (Hx & Hr & Hp & HN).
      specialize (IH (iter + 1) (cg_iteration iter s)).
      rewrite HN in IH. destruct (IH HOp) as (Ix & Ir & Ip & IN).
      repeat split; try (eapply same_beyond_trans; eassumption).
      congruence.
Qed.

(** C9. Each vector operation the solver issues itself is given the count
    N: the initial residual subtraction, p <- r + beta*p, the fused residual
    update and x <- alpha*p + x leave every entry at an index >= N (the
    halo entries N .. N+Nhalo-1) of the vector they write as it was, and
    keep its length; UpdateCG writes neither p nor Ap.  Hence over a whole
    Solve, with an operator that leaves the halo entries of its input
    alone, the halo entries of x, r and p are those at the call. *)
Theorem solver_updates_leave_halo c (o_x o_r : list F) (alpha beta : F) :
  let n := Z.to_nat (N c) in
  same_beyond n (residual_init c o_r) o_r
  /\ same_beyond n (direction_update c o_r beta) (o_p c)
  /\ same_beyond n (fst (residual_update c alpha o_r)) o_r
  /\ same_beyond n (solution_update c alpha o_x) o_x
  /\ length (residual_init c o_r) = length o_r
  /\ length (direction_update c o_r beta) = length (o_p c)
  /\ length (fst (residual_update c alpha o_r)) = length o_r
  /\ length (solution_update c alpha o_x) = length o_x
  /\ same_beyond n (u_x (UpdateCG comm c alpha o_x o_r)) o_x
  /\ same_beyond n (u_r (UpdateCG comm c alpha o_x o_r)) o_r
  /\ o_p (u_cg (UpdateCG comm c alpha o_x o_r)) = o_p c
  /\ o_Ap (u_cg (UpdateCG comm c alpha o_x o_r)) = o_Ap c
  /\ ((forall q Aq, same_beyond n (fst (Operator q Aq)) q) ->
      forall tol MAXIT,
        same_beyond n (s_x (snd (Solve c o_x o_r tol MAXIT))) o_x
        /\ same_beyond n (s_r (snd (Solve c o_x o_r tol MAXIT))) o_r
        /\ same_beyond n (o_p (s_cg (snd (Solve c o_x o_r tol MAXIT))))
             (o_p c)).
Proof.
  cbv zeta.
  repeat match goal with |- _ /\ _ => split end;
    try apply axpy_same_beyond; try apply update_r_same_beyond;
    try apply axpy_length; try apply update_r_length; try reflexivity.
  intros HOp tol MAXIT. rewrite Solve_unfold.
  destruct (Solve_init_fields c o_x o_r tol) as (Ex & _ & Ep & EN & Er & _).
  rewrite <- EN in HOp.
  destruct (cg_loop_halo (Z.to_nat MAXIT) (fst (Solve_init c o_x o_r tol)) 0
              _ HOp) as (Hx & Hr & Hp & _).
  rewrite EN in Hx, Hr, Hp, HOp. rewrite Ex in Hx. rewrite Er in Hr.
  rewrite Ep in Hp.
  repeat split.
  - eapply same_beyond_trans; [exact Hx | apply HOp].
  - eapply same_beyond_trans; [exact Hr | apply axpy_same_beyond].
  - exact Hp.
Qed.

(** C3. Solve takes the initial rdotr to be the square of the global 2-norm
    of the updated residual r - A x, and TOL = max(tol^2 * rdotr, tol^2).
    At the top of the loop, rdotr <= TOL ends the loop with the count as it
    stands, whatever number of trips is still allowed.  In particular, when
    the initial rdotr already satisfies rdotr <= TOL, Solve runs the loop
    body zero times and returns 0, leaving the state of the initial
    residual computation. *)
Theorem Solve_tolerance_exit c (o_x o_r : list F) (tol : F) (MAXIT : Z) :
  let TOL := fst (Solve_init c o_x o_r tol) in
  let s0 := snd (Solve_init c o_x o_r tol) in
  let n := Z.to_nat (N c) in
  s_r s0 = axpy n (fopp fone) (snd (Operator o_x (o_Ap c))) fone o_r
  /\ s_rdotr s0 = fmul (norm2 comm n (s_r s0)) (norm2 comm n (s_r s0))
  /\ TOL = mymax (fmul (fmul tol tol) (s_rdotr s0)) (fmul tol tol)
  /\ Solve c o_x o_r tol MAXIT = cg_loop (Z.to_nat MAXIT) TOL 0 s0
  /\ (forall fuel iter s,
        fleb (s_rdotr s) TOL = true -> cg_loop fuel TOL iter s = (iter, s))
  /\ (fleb (s_rdotr s0) TOL = true -> Solve c o_x o_r tol MAXIT = (0, s0)).
Proof.
  cbv zeta.
  destruct (Solve_init_fields c o_x o_r tol) as (_ & _ & _ & _ & Er & Erd & ET).
  repeat match goal with |- _ /\ _ => split end; try assumption.
  - apply Solve_unfold.
  - intros fuel iter s. apply cg_loop_exit.
  - intros E. rewrite Solve_unfold. now apply cg_loop_exit.
Qed.

End SolverFacts.

(** ** The order of events in [UpdateCG] *)

Section StreamFacts.
Import Stream.

Lemma steps_trans m1 m2 m3 : steps m1 m2 -> steps m2 m3 -> steps m1 m3.
Proof.
  intros H12 H23; induction H23; [assumption|].
  eapply steps_step; [apply IHsteps; assumption | eassumption].
Qed.

Lemma run1_step b m m' : run1 b m = Some m' -> step m m'.
Proof.
  destruct m as [p q c t a]; unfold run1; cbn [todo queue completed tag
    at_allreduce outstanding].
  destruct b.
  - destruct p as [|[o| | |] rest]; try discriminate.
    + intros [= <-]. constructor.
    + intros [= <-]. constructor.
    + destruct (Nat.leb_spec t c); [|discriminate].
      intros [= <-]. now constructor.
    + intros [= <-]. constructor.
  - destruct (Nat.ltb_spec c (length q)); [|discriminate].
    intros [= <-]. now constructor.
Qed.

Lemma run_steps sched m m' : run sched m = Some m' -> steps m m'.
Proof.
  revert m; induction sched as [|b sched IH]; intros m; simpl.
  - intros [= <-]. constructor.
  - destruct (run1 b m) as [m1|] eqn:E; [|discriminate].
    intros Hr. apply steps_trans with (m2 := m1); [|apply IH; exact Hr].
    apply steps_step with (m2 := m);
      [apply steps_refl | apply (run1_step b); exact E].
Qed.

Lemma after_commands_start : after_commands 0 (start UpdateCG_host).
Proof.
  unfold after_commands, start; simpl.
  repeat split; try lia; try reflexivity.
Qed.

Lemma after_commands_step m m' :
  (exists k, after_commands k m) -> step m m' ->
  exists k, after_commands k m'.
Proof.
  intros [k (Hk & Ht & Hq & Hc & Htag & Hw & Ha & Hf)] Hstep.
  destruct Hstep; cbn [todo queue completed tag at_allreduce] in *.
  5: { exists k. unfold after_commands;
         cbn [todo queue completed tag at_allreduce].
       repeat split; auto; try lia. }
  all: do 8 (try destruct k as [|k]); try lia;
       cbn in Ht, Hq; try discriminate; injection Ht as Ht; subst.
  all: match goal with
       | |- exists k, after_commands k {| todo := ?t |} =>
           let n := eval compute in (7 - length t)%nat in exists n
       end;
       unfold after_commands; cbn in *; repeat split; auto; try lia;
       try discriminate.
  1-3: intros _; apply Ha; lia.
  intros _. exists c.
  split; [apply Hw; lia | rewrite Ha by lia; reflexivity].
Qed.

Lemma reachable_after_commands m :
  steps (start UpdateCG_host) m -> exists k, after_commands k m.
Proof.
  intros Hs. remember (start UpdateCG_host) as m0 eqn:E.
  induction Hs as [m|m1 m2 m3 H12 IH H23]; subst.
  - exists 0%nat. apply after_commands_start.
  - eapply after_commands_step; [apply IH; reflexivity | exact H23].
Qed.

Lemma overlap_run :
  run overlap_schedule (start UpdateCG_host) = Some overlap_machine.
Proof. reflexivity. Qed.

(** C2, as stated, fails: there is a run of UpdateCG in which the host
    returns from waitFor and enters the reduction while the solution update
    x <- alpha*p + x, enqueued after the tag, has not completed. *)
Lemma UpdateCG_reduction_overlaps_solution_update :
  steps (start UpdateCG_host) overlap_machine
  /\ todo overlap_machine = []
  /\ at_allreduce overlap_machine = [[Axpy_x]]
  /\ outstanding overlap_machine = [Axpy_x].
Proof.
  split; [apply (run_steps overlap_schedule); apply overlap_run|].
  repeat split.
Qed.

(** C2 (as amended). In every run of UpdateCG: the tag is taken after the
    fused kernel and the transfer have been enqueued and before the solution
    update is; while the host is at waitFor and any of the accumulator
    reset, the fused kernel and the transfer is outstanding, the host takes
    no step; once it is past waitFor all three have completed; so whenever
    the reduction is entered, nothing but the solution update can be
    outstanding: the transfer has completed, the solution update may still
    be running. *)
Theorem UpdateCG_reduction_waits_for_transfer (m : machine) :
  steps (start UpdateCG_host) m ->
  (forall o, In o (at_allreduce m) -> o = [] \/ o = [Axpy_x])
  /\ (todo m = [Allreduce] \/ todo m = [] ->
      (3 <= completed m)%nat
      /\ firstn 3 (queue m) = [SetKernel; UpdateCGKernel_r; CopyTo_async]
      /\ (outstanding m = [] \/ outstanding m = [Axpy_x]))
  /\ (todo m = [WaitFor; Allreduce] ->
      tag m = 3%nat
      /\ queue m = [SetKernel; UpdateCGKernel_r; CopyTo_async; Axpy_x]
      /\ ((completed m < 3)%nat ->
          forall m', step m m' -> todo m' = todo m)).
Proof.
  intros Hs. destruct (reachable_after_commands m Hs)
    as [k (Hk & Ht & Hq & Hc & Htag & Hw & Ha & Hf)].
  assert (Hout : forall c, (3 <= c)%nat ->
            skipn c (enqueued UpdateCG_host) = []
            \/ skipn c (enqueued UpdateCG_host) = [Axpy_x]).
  { intros c H3. do 3 (destruct c as [|c]; [lia|]).
    destruct c as [|c]; [now right | left; cbn; now destruct c]. }
  assert (Hpast : todo m = [Allreduce] \/ todo m = [] -> (6 <= k)%nat).
  { intros Htodo.
    do 8 (try destruct k as [|k]); try lia; cbn in Ht; rewrite Ht in Htodo;
      destruct Htodo; discriminate. }
  assert (Hat : todo m = [WaitFor; Allreduce] -> k = 5%nat).
  { intros Htodo.
    do 8 (try destruct k as [|k]); try lia; cbn in Ht; rewrite Ht in Htodo;
      discriminate. }
  split; [|split].
  - intros o Ho. destruct (Nat.eq_dec k 7) as [E|E].
    + destruct (Hf E) as (c & H3 & Hc'). rewrite Hc' in Ho.
      destruct Ho as [<-|[]]. now apply Hout.
    + rewrite Ha in Ho by lia. contradiction.
  - intros Htodo. specialize (Hpast Htodo).
    assert (Eq : queue m = enqueued UpdateCG_host).
    { rewrite Hq. destruct (Nat.eq_dec k 6) as [->|]; [reflexivity|].
      replace k with 7%nat by lia. reflexivity. }
    split; [now apply Hw|]. split; [rewrite Eq; reflexivity|].
    unfold outstanding. rewrite Eq. apply Hout. now apply Hw.
  - intros Htodo. specialize (Hat Htodo). subst k.
    split; [apply Htag; lia|]. split; [exact Hq|].
    intros Hlt m' Hstep.
    assert (Et : tag m = 3%nat) by (apply Htag; lia).
    destruct Hstep; cbn [todo tag completed] in *; try discriminate;
      try reflexivity.
    lia.
Qed.

Lemma UpdateCG_reduction_waits_for_transfer_witness :
  (3 <= completed overlap_machine)%nat
  /\ firstn 3 (queue overlap_machine)
     = [SetKernel; UpdateCGKernel_r; CopyTo_async]
  /\ (outstanding overlap_machine = []
      \/ outstanding overlap_machine = [Axpy_x]).
Proof.
  apply (UpdateCG_reduction_waits_for_transfer overlap_machine
           (run_steps overlap_schedule _ _ overlap_run)).
  right. reflexivity.
Defined.

End StreamFacts.

(** ** The solver on binary64: sample runs *)

Section FloatRuns.
Import CG Sample.

(** On binary64, for the symmetric positive definite operator diag(1, 100)
    and right-hand side (10, 1), the first iteration takes the squared
    residual norm from 101 to more than 24 times that. *)
Lemma rdotr_grows_binary64 :
  fst (Solve_diag 0) = 0
  /\ s_rdotr (snd (Solve_diag 0)) = 101%float
  /\ fst (Solve_diag 1) = 1
  /\ PrimFloat.ltb (PrimFloat.mul 24 (s_rdotr (snd (Solve_diag 0))))
       (s_rdotr (snd (Solve_diag 1))) = true
  /\ PrimFloat.leb (s_rdotr (snd (Solve_diag 1)))
       (PrimFloat.mul (s_rdotr (snd (Solve_diag 0))) (1 + 23)) = false.
Proof. vm_compute. repeat split. Qed.

(** On binary64, with the identity operator and x = 0, Solve returns 0 and
    leaves x = 0 when the right-hand side already meets the tolerance
    (tolerance 1 with r0 = (3, 4); r0 = 0 with any tolerance) or when MAXIT
    is 0. *)
Lemma identity_solve_without_iteration_binary64 :
  (fst (Solve_identity [3; 4]%float 1%float 10) = 0
   /\ s_x (snd (Solve_identity [3; 4]%float 1%float 10)) = [0; 0]%float)
  /\ fst (Solve_identity [0; 0]%float 0x1p-30%float 10) = 0
  /\ (fst (Solve_identity [3; 4]%float 0x1p-30%float 0) = 0
      /\ s_x (snd (Solve_identity [3; 4]%float 0x1p-30%float 0))
         = [0; 0]%float).
Proof. vm_compute. repeat split. Qed.

(** Where the tolerance is not met at the start, one iteration does it. *)
Example identity_solve_3_4 :
  fst (Solve_identity [3; 4]%float 0x1p-30%float 10) = 1
  /\ s_x (snd (Solve_identity [3; 4]%float 0x1p-30%float 10)) = [3; 4]%float.
Proof. vm_compute. repeat split. Qed.

(** On binary64 the iterate need not be the right-hand side to the last
    bit: for r0 = (1, 1) the norm's square root and squaring give
    alpha = 1 + 2^-52. *)
Example identity_solve_1_1_rounding :
  fst (Solve_identity [1; 1]%float 0x1p-30%float 10) = 1
  /\ s_x (snd (Solve_identity [1; 1]%float 0x1p-30%float 10))
     = [0x1.0000000000001p+0; 0x1.0000000000001p+0]%float.
Proof. vm_compute. repeat split. Qed.

Lemma Solve_tolerance_exit_witness :
  fst (Solve_identity [3; 4]%float 1%float 10) = 0.
Proof.
  unfold Solve_identity.
  destruct (Solve_tolerance_exit one_rank (pure_operator (fun q => q))
              (cg_new (Z.of_nat (length [3; 4]%float)) 0 0%float 0%float)
              (repeat 0%float (length [3; 4]%float)) [3; 4]%float 1%float 10)
    as (_ & _ & _ & _ & _ & Hexit).
  rewrite Hexit; [reflexivity | vm_compute; reflexivity].
Defined.

Lemma solver_updates_leave_halo_witness :
  let run := Solve one_rank (pure_operator (fun q => q))
               (cg_new 2 1 0%float 0%float)
               [0; 0; 7]%float [3; 4; 9]%float 0x1p-30%float 10 in
  fst run = 1
  /\ nth_error (s_x (snd run)) 2 = Some 7%float
  /\ nth_error (s_r (snd run)) 2 = Some 9%float.
Proof.
  cbv zeta.
  destruct (solver_updates_leave_halo one_rank (pure_operator (fun q => q))
              (cg_new 2 1 0%float 0%float) [0; 0; 7]%float [3; 4; 9]%float
              0%float 0%float)
    as (_ & _ & _ & _ & _ & _ & _ & _ & _ & _ & _ & _ & Hsolve).
  destruct (Hsolve (fun q Aq => same_beyond_refl _ q) 0x1p-30%float 10)
    as (Hx & Hr & _).
  split; [vm_compute; reflexivity|].
  split; [apply (Hx 2%nat) | apply (Hr 2%nat)]; apply le_n.
Defined.

End FloatRuns.

(** ** The solver in exact arithmetic *)

Section ExactFacts.
Import LinAlg CG Exact.
Local Open Scope R_scope.

Ltac scalars :=
  cbn [fadd fsub fmul fdiv fopp fzero fone fsqrt fleb fltb Scalar_R] in *.

Implicit Types (X Y Z : list R) (n : nat).

Lemma Rleb_true a b : Rleb a b = true <-> a <= b.
Proof. unfold Rleb. destruct (Rle_dec a b); split; auto; discriminate. Qed.

Lemma Rleb_false a b : Rleb a b = false <-> b < a.
Proof.
  unfold Rleb. destruct (Rle_dec a b); split; auto; try discriminate; lra.
Qed.

Lemma mymax_R a b : mymax a b = Rmax a b.
Proof.
  unfold mymax; scalars. unfold Rltb, Rmax.
  destruct (Rlt_dec b a), (Rle_dec a b); lra.
Qed.

Lemma dot_comm n X Y : dot n X Y = dot n Y X.
Proof.
  revert X Y; induction n as [|n IH]; intros [|x X] [|y Y]; simpl; auto.
  scalars. rewrite (IH X Y). ring.
Qed.

Lemma dot_axpy_l n a X b Y Z :
  long n X -> long n Y ->
  dot n (axpy n a X b Y) Z = a * dot n X Z + b * dot n Y Z.
Proof.
  unfold long. revert X Y Z; induction n as [|n IH]; intros X Y Z HX HY.
  - destruct X, Y, Z; simpl; scalars; ring.
  - destruct X as [|x X], Y as [|y Y]; simpl in HX, HY; try lia.
    destruct Z as [|z Z]; simpl; scalars; [ring|].
    rewrite IH by lia. ring.
Qed.

Lemma dot_axpy_r n a X b Y Z :
  long n X -> long n Y ->
  dot n Z (axpy n a X b Y) = a * dot n Z X + b * dot n Z Y.
Proof.
  intros HX HY. rewrite dot_comm, dot_axpy_l by assumption.
  now rewrite (dot_comm n X Z), (dot_comm n Y Z).
Qed.

Lemma dot_update_r_l n X a Y Z :
  long n X -> long n Y ->
  dot n (update_r n X a Y) Z = dot n Y Z - a * dot n X Z.
Proof.
  unfold long. revert X Y Z; induction n as [|n IH]; intros X Y Z HX HY.
  - destruct X, Y, Z; simpl; scalars; ring.
  - destruct X as [|x X], Y as [|y Y]; simpl in HX, HY; try lia.
    destruct Z as [|z Z]; simpl; scalars; [ring|].
    rewrite IH by lia. ring.
Qed.

Lemma dot_self_nonneg n X : 0 <= dot n X X.
Proof.
  revert X; induction n as [|n IH]; intros [|x X]; simpl; scalars;
    try lra.
  specialize (IH X). nra.
Qed.

Lemma dot_self_zero n X Y : dot n X X = 0 -> dot n X Y = 0.
Proof.
  revert X Y; induction n as [|n IH]; intros [|x X] [|y Y]; simpl; scalars;
    auto.
  intros E. pose proof (dot_self_nonneg n X) as Hp.
  assert (x = 0) by nra. assert (dot n X X = 0) by nra.
  rewrite (IH X Y) by assumption. subst x. ring.
Qed.

Lemma long_axpy n m a X b Y : long m Y -> long m (axpy n a X b Y).
Proof. unfold long. now rewrite axpy_length. Qed.

Lemma long_update_r n m X a Y : long m Y -> long m (update_r n X a Y).
Proof. unfold long. now rewrite update_r_length. Qed.


Lemma cg_iteration_exact n A b TOL iter s :
  SPD n A -> 0 <= TOL -> cg_invariant n A b iter s -> TOL < s_rdotr s ->
  cg_invariant n A b (iter + 1)
    (cg_iteration (fun x => x) (pure_operator A) iter s)
  /\ energy n A b (s_x (cg_iteration (fun x => x) (pure_operator A) iter s))
     <= energy n A b (s_x s).
Proof.
  intros HA HT (Hi & Hn & Lx & Lr & Lp & Hrr & Hres & Horth) Hgt.
  destruct (cg_iteration_fields (fun x => x) (pure_operator A) iter s)
    as (Ex & Er & Erd & Ep & EAp & EN & _).
  cbn [pure_operator fst snd] in *.
  unfold solution_update, residual_update, updateCGKernel_r,
    direction_update, innerProd in *.
  cbn [with_vectors N o_p o_Ap fst snd] in *.
  rewrite Hn in *.
  set (beta := if (iter =? 0)%Z then fzero
               else fdiv (s_rdotr s) (s_rdotr1 s)) in *.
  set (p := axpy n fone (s_r s) beta (o_p (s_cg s))) in *.
  scalars.
  set (rr := s_rdotr s) in *.
  set (pAp := dot n p (A p)) in *.
  set (alpha := rr / pAp) in *.
  assert (Hrr0 : 0 < rr) by lra.
  assert (Lpn : long n p) by (apply long_axpy; assumption).
  assert (LAp : long n (A p)) by (apply (spd_long n A HA); assumption).
  assert (Hpr : dot n p (s_r s) = rr).
  { unfold p. rewrite dot_axpy_l by assumption. rewrite <- Hrr.
    destruct Horth as [E0 | Ho].
    - unfold beta. rewrite E0. cbn. ring.
    - rewrite (dot_comm n (o_p (s_cg s))), Ho. ring. }
  assert (Hpp : 0 < dot n p p).
  { destruct (dot_self_nonneg n p) as [Hlt | Heq]; [exact Hlt|].
    pose proof (dot_self_zero n p (s_r s) (eq_sym Heq)). lra. }
  assert (HpAp : 0 < pAp) by (apply (spd_positive n A HA); assumption).
  assert (Ha : alpha * pAp = rr) by (unfold alpha; field; lra).
  assert (Ha0 : 0 < alpha) by (unfold alpha; apply Rdiv_lt_0_compat; lra).
  assert (Lx' : long n (axpy n alpha p 1 (s_x s)))
    by (apply long_axpy; assumption).
  split.
  - unfold cg_invariant. rewrite Ex, Er, Erd, Ep, EN.
    repeat match goal with |- _ /\ _ => split end.
    + lia.
    + exact Hn.
    + exact Lx'.
    + apply long_update_r; assumption.
    + exact Lpn.
    + ring.
    + intros Z LZ.
      rewrite (dot_comm n Z), dot_update_r_l by assumption.
      rewrite (spd_linear n A HA) by assumption.
      rewrite (dot_comm n (s_r s) Z), (Hres Z LZ), (dot_comm n (A p) Z).
      ring.
    + right. rewrite dot_update_r_l by assumption.
      rewrite (dot_comm n (s_r s) p), Hpr, (dot_comm n (A p) p).
      fold pAp. lra.
  - unfold energy. rewrite Ex.
    rewrite (spd_linear n A HA) by assumption.
    rewrite !dot_axpy_l, dot_axpy_r by assumption.
    fold pAp.
    pose proof (Hres p Lpn) as Hp. rewrite Hpr in Hp.
    rewrite (spd_symmetric n A HA (s_x s) p) by assumption.
    rewrite (dot_comm n (A (s_x s)) p).
    rewrite (dot_comm n b p).
    nra.
Qed.

Lemma cg_loop_exact n A b TOL fuel iter s :
  SPD n A -> 0 <= TOL -> cg_invariant n A b iter s ->
  cg_invariant n A b
    (fst (cg_loop (fun x => x) (pure_operator A) fuel TOL iter s))
    (snd (cg_loop (fun x => x) (pure_operator A) fuel TOL iter s)).
Proof.
  intros HA HT. revert iter s; induction fuel as [|fuel IH]; intros iter s Hinv.
  - exact Hinv.
  - cbn [cg_loop]. destruct (fleb (s_rdotr s) TOL) eqn:E; [exact Hinv|].
    apply IH. apply (cg_iteration_exact n A b TOL); try assumption.
    now apply Rleb_false.
Qed.

Lemma Solve_init_exact A c x0 b tol :
  let n := Z.to_nat (N c) in
  SPD n A -> long n x0 -> long n b -> long n (o_p c) ->
  0 <= fst (Solve_init (fun x => x) (pure_operator A) c x0 b tol)
  /\ cg_invariant n A b 0
       (snd (Solve_init (fun x => x) (pure_operator A) c x0 b tol)).
Proof.
  intros n HA Lx Lb Lp.
  destruct (Solve_init_fields (fun x => x) (pure_operator A) c x0 b tol)
    as (Ex & EAp & Ep & EN & Er & Erd & ET).
  cbn [pure_operator fst snd] in *. unfold norm2 in *. fold n in Er, Erd.
  scalars.
  rewrite sqrt_sqrt in Erd by apply dot_self_nonneg.
  split.
  - rewrite ET, mymax_R.
    eapply Rle_trans; [|apply Rmax_r]. nra.
  - unfold cg_invariant. rewrite Ex, Ep, EN, Erd.
    repeat match goal with |- _ /\ _ => split end; auto; try lia.
    + rewrite Er. now apply long_axpy.
    + intros Z LZ. rewrite Er.
      rewrite dot_axpy_r by (try assumption; now apply (spd_long n A HA)).
      ring.
Qed.

(** C5 (as amended). For a symmetric positive definite operator, in exact
    arithmetic on one rank, what no iteration of Solve increases is the
    energy x.Ax/2 - b.x of the iterate (equivalently the A-norm of the
    error): allowing the loop one more trip never gives an iterate of
    higher energy.  The squared residual norm rdotr is not monotone. *)
Theorem Solve_energy_nonincreasing (A : list R -> list R) (c : cg_t R)
    (x0 b : list R) (tol : R) (k : Z) :
  SPD (Z.to_nat (N c)) A ->
  long (Z.to_nat (N c)) x0 -> long (Z.to_nat (N c)) b ->
  long (Z.to_nat (N c)) (o_p c) ->
  (0 <= k)%Z ->
  energy (Z.to_nat (N c)) A b (s_x (snd (Solve_exact A c x0 b tol (k + 1))))
  <= energy (Z.to_nat (N c)) A b (s_x (snd (Solve_exact A c x0 b tol k))).
Proof.
  intros HA Lx Lb Lp Hk. unfold Solve_exact. rewrite !Solve_unfold.
  destruct (Solve_init_exact A c x0 b tol HA Lx Lb Lp) as [HT Hinv].
  replace (Z.to_nat (k + 1)) with (S (Z.to_nat k)) by lia.
  rewrite cg_loop_succ.
  pose proof (cg_loop_exact _ A b _ (Z.to_nat k) 0 _ HA HT Hinv) as Hk_inv.
  unfold guarded_iteration.
  destruct (fleb _ _) eqn:E; [apply Rle_refl|].
  cbn [snd fst].
  apply (cg_iteration_exact _ A b _ _ _ HA HT Hk_inv).
  now apply Rleb_false.
Qed.

Lemma axpy_zeros n m a Y :
  (n <= m)%nat -> axpy n a (repeat 0 m) 1 Y = Y.
Proof.
  revert m Y; induction n as [|n IH]; intros [|m] [|y Y] Hm; simpl; auto;
    try lia.
  scalars. rewrite IH by lia. f_equal. ring.
Qed.

Lemma firstn_solution_identity n X P m :
  long n X -> long n P -> (n <= m)%nat ->
  firstn n (axpy n 1 (axpy n 1 X 0 P) 1 (repeat 0 m)) = firstn n X.
Proof.
  unfold long. revert X P m; induction n as [|n IH]; intros X P m HX HP Hm.
  - reflexivity.
  - destruct X as [|x X], P as [|p P], m as [|m]; simpl in *; try lia.
    scalars. rewrite IH by lia. f_equal. ring.
Qed.

(** C6 (as amended). With the identity operator, x the zero vector and r
    the right-hand side r0, in exact arithmetic on one rank: if MAXIT >= 1
    and the initial residual does not already meet the tolerance
    (rdotr > TOL = max(tol^2 * rdotr, tol^2), for which r0 must be nonzero
    on its first N entries), Solve returns 1, the first N entries of x are
    those of r0 (x = r0 when there is no halo), the halo entries of x are
    untouched, and the final rdotr is 0. *)
Theorem identity_solve_one_iteration (c : cg_t R) (r0 : list R) (tol : R)
    (MAXIT : Z) :
  let n := Z.to_nat (N c) in
  let x0 := repeat 0 (length r0) in
  long n r0 -> long n (o_p c) -> (1 <= MAXIT)%Z ->
  Rmax (tol * tol * dot n r0 r0) (tol * tol) < dot n r0 r0 ->
  fst (Solve_exact (fun q => q) c x0 r0 tol MAXIT) = 1%Z
  /\ firstn n (s_x (snd (Solve_exact (fun q => q) c x0 r0 tol MAXIT)))
     = firstn n r0
  /\ same_beyond n (s_x (snd (Solve_exact (fun q => q) c x0 r0 tol MAXIT)))
       x0
  /\ (length r0 = n ->
      s_x (snd (Solve_exact (fun q => q) c x0 r0 tol MAXIT)) = r0)
  /\ s_rdotr (snd (Solve_exact (fun q => q) c x0 r0 tol MAXIT)) = 0.
Proof.
  intros n x0 Lr Lp HM Hgt.
  unfold Solve_exact. rewrite Solve_unfold.
  destruct (Solve_init_fields (fun x => x) (pure_operator (fun q => q))
              c x0 r0 tol) as (Ex & EAp & Ep & EN & Er & Erd & ET).
  cbn [pure_operator fst snd] in *. unfold norm2 in *. fold n in Er, Erd.
  scalars.
  rewrite sqrt_sqrt in Erd by apply dot_self_nonneg.
  assert (Ez : axpy n (- (1)) x0 1 r0 = r0)
    by (unfold x0; apply axpy_zeros; exact Lr).
  rewrite Ez in Er.
  rewrite Er in Erd. rewrite Erd, mymax_R in ET.
  set (s0 := snd (Solve_init (fun x => x) (pure_operator (fun q => q))
                    c x0 r0 tol)) in *.
  set (TOL := fst (Solve_init (fun x => x) (pure_operator (fun q => q))
                     c x0 r0 tol)) in *.
  set (rr := dot n r0 r0) in *.
  assert (HT : 0 <= TOL).
  { rewrite ET. eapply Rle_trans; [|apply Rmax_r]. nra. }
  destruct (cg_iteration_fields (fun x => x) (pure_operator (fun q => q))
              0 s0) as (Ex1 & Er1 & Erd1 & _).
  cbn [pure_operator fst snd] in *.
  unfold solution_update, residual_update, updateCGKernel_r,
    direction_update, innerProd in *.
  cbn [with_vectors N o_p o_Ap fst snd Z.eqb] in *.
  rewrite EN, Ep, Er, Erd, Ex in *. fold n in Ex1, Er1, Erd1.
  scalars.
  set (p := axpy n 1 r0 0 (o_p c)) in *.
  assert (Lpn : long n p) by (apply long_axpy; assumption).
  assert (Hpp : dot n p p = rr).
  { unfold p. rewrite dot_axpy_l, !dot_axpy_r by assumption.
    fold rr. ring. }
  assert (Hpr : dot n p r0 = rr).
  { unfold p. rewrite dot_axpy_l by assumption. fold rr. ring. }
  assert (Hrr0 : 0 < rr) by lra.
  assert (Ha : rr / dot n p p = 1) by (rewrite Hpp; field; lra).
  rewrite Ha in *.
  assert (Hrd : s_rdotr (cg_iteration (fun x => x)
                   (pure_operator (fun q => q)) 0 s0) = 0).
  { rewrite Erd1. rewrite dot_update_r_l by assumption.
    rewrite !(dot_comm n _ (update_r n p 1 r0)).
    rewrite !dot_update_r_l by assumption.
    rewrite (dot_comm n r0 p), Hpp, Hpr. fold rr. ring. }
  assert (Eloop : cg_loop (fun x => x) (pure_operator (fun q => q))
                    (Z.to_nat MAXIT) TOL 0 s0
                  = (1%Z, cg_iteration (fun x => x)
                            (pure_operator (fun q => q)) 0 s0)).
  { replace (Z.to_nat MAXIT) with (S (Z.to_nat (MAXIT - 1))) by lia.
    cbn [cg_loop].
    replace (fleb (s_rdotr s0) TOL) with false
      by (symmetry; scalars; apply Rleb_false; rewrite Erd, ET; exact Hgt).
    apply cg_loop_exit. scalars. apply Rleb_true. rewrite Hrd. exact HT. }
  rewrite Eloop. cbn [fst snd].
  assert (Hfirst : firstn n (s_x (cg_iteration (fun x => x)
                     (pure_operator (fun q => q)) 0 s0)) = firstn n r0).
  { rewrite Ex1. unfold p, x0. apply firstn_solution_identity; auto. }
  repeat match goal with |- _ /\ _ => split end.
  - reflexivity.
  - exact Hfirst.
  - rewrite Ex1. apply axpy_same_beyond.
  - intros Hlen.
    transitivity (firstn n r0); [|rewrite <- Hlen; apply firstn_all].
    rewrite <- Hfirst. symmetry. apply firstn_all2.
    rewrite Ex1, axpy_length. unfold x0. rewrite repeat_length. lia.
  - exact Hrd.
Qed.

Lemma SPD_diag_1_100 : SPD 2 Sample.diag_1_100_exact.
Proof.
  split.
  - intros [|x1 [|x2 X]]; unfold long; simpl; lia.
  - intros a [|x1 [|x2 X]] b [|y1 [|y2 Y]] [|z1 [|z2 Z]];
      unfold long; simpl; try lia; intros _ _ _; scalars; ring.
  - intros [|x1 [|x2 X]] [|y1 [|y2 Y]]; unfold long; simpl; try lia;
      intros _ _; scalars; ring.
  - intros [|x1 [|x2 X]]; unfold long; simpl; try lia; intros _; scalars.
    nra.
Qed.

Lemma Solve_energy_nonincreasing_witness :
  energy 2 Sample.diag_1_100_exact [10; 1]
    (s_x (snd (Solve_exact Sample.diag_1_100_exact (cg_new 2 0 0 0)
                 [0; 0] [10; 1] 0 (0 + 1))))
  <= energy 2 Sample.diag_1_100_exact [10; 1]
       (s_x (snd (Solve_exact Sample.diag_1_100_exact (cg_new 2 0 0 0)
                    [0; 0] [10; 1] 0 0))).
Proof.
  apply (Solve_energy_nonincreasing Sample.diag_1_100_exact
           (cg_new 2 0 0 0) [0; 0] [10; 1] 0 0 SPD_diag_1_100);
    try (unfold long; simpl; lia); lia.
Defined.

Lemma identity_solve_one_iteration_witness :
  fst (Solve_exact (fun q => q) (cg_new 2 0 0 0) [0; 0] [3; 4] 0 10) = 1%Z
  /\ s_x (snd (Solve_exact (fun q => q) (cg_new 2 0 0 0) [0; 0] [3; 4] 0 10))
     = [3; 4].
Proof.
  destruct (identity_solve_one_iteration (cg_new 2 0 0 0) [3; 4] 0 10)
    as (Hit & _ & _ & Hx & _).
  - unfold long; simpl; lia.
  - unfold long; simpl; lia.
  - lia.
  - simpl; scalars. unfold Rmax. destruct (Rle_dec _ _); lra.
  - split; [exact Hit | apply Hx; reflexivity].
Defined.

(** Evaluation of a run on concrete real vectors of two entries. *)
Ltac run_exact :=
  cbn [cg_new with_vectors N Nhalo o_p o_Ap s_cg s_x s_r s_rdotr
       s_rdotr1 fst snd Z.eqb Z.add Pos.add u_x u_r u_rdotr u_cg];
  repeat match goal with
         | |- context [Z.to_nat ?z] =>
             let v := eval vm_compute in (Z.to_nat z) in
             change (Z.to_nat z) with v
         end;
  cbn [dot axpy update_r repeat cg_loop fst snd s_rdotr s_r s_x s_cg
       Sample.diag_1_100_exact with_vectors N Nhalo o_p o_Ap];
  scalars.

(** In exact arithmetic, diag(1, 100) and b = (10, 1): rdotr is 101 at
    the start and 2474.7525 after the first iteration. *)
Lemma rdotr_grows_exact :
  s_rdotr (snd (Solve_exact Sample.diag_1_100_exact (cg_new 2 0 0 0)
                  [0; 0] [10; 1] 0 0)) = 101
  /\ s_rdotr (snd (Solve_exact Sample.diag_1_100_exact (cg_new 2 0 0 0)
                     [0; 0] [10; 1] 0 1)) = 24747525 / 10000.
Proof.
  unfold Solve_exact, Solve, Solve_init, pure_operator, residual_init, norm2.
  run_exact.
  replace (1 * 0) with 0 by ring. replace (100 * 0) with 0 by ring.
  replace (- (1) * 0 + 1 * 10) with 10 by ring.
  replace (- (1) * 0 + 1 * 1) with 1 by ring.
  replace (10 * 10 + (1 * 1 + 0)) with 101 by ring.
  rewrite sqrt_sqrt by lra.
  rewrite mymax_R.
  replace (Rleb _ _) with false.
  2:{ symmetry. apply Rleb_false. unfold Rmax. destruct (Rle_dec _ _); lra. }
  split; [reflexivity|].
  unfold cg_iteration, pure_operator, direction_update, UpdateCG,
    residual_update, updateCGKernel_r, solution_update, innerProd.
  run_exact. field.
Qed.

(** C5, as stated, fails: diag(1, 100) is symmetric positive definite, and
    for the right-hand side (10, 1) the first iteration of Solve takes the
    squared residual norm from 101 to 2474.7525, in exact arithmetic and
    (up to rounding) on binary64: rdotr(1) <= rdotr(0) * (1 + eps) fails for
    every eps up to 23. *)
Lemma rdotr_grows_on_diag_1_100 :
  SPD 2 Sample.diag_1_100_exact
  /\ s_rdotr (snd (Solve_exact Sample.diag_1_100_exact (cg_new 2 0 0 0)
                     [0; 0] [10; 1] 0 0)) * (1 + 23)
     < s_rdotr (snd (Solve_exact Sample.diag_1_100_exact (cg_new 2 0 0 0)
                       [0; 0] [10; 1] 0 1))
  /\ PrimFloat.leb (s_rdotr (snd (Sample.Solve_diag 1)))
       (PrimFloat.mul (s_rdotr (snd (Sample.Solve_diag 0)))
          (PrimFloat.add 1 23)) = false.
Proof.
  split; [exact SPD_diag_1_100|]. split.
  - destruct rdotr_grows_exact as [-> ->]. lra.
  - apply rdotr_grows_binary64.
Qed.

(** In exact arithmetic, identity operator, x = 0, r0 = (3, 4) and
    tolerance 1: the initial rdotr = 25 equals TOL, and Solve returns 0
    with x = 0. *)
Lemma identity_solve_without_iteration_exact :
  fst (Solve_exact (fun q => q) (cg_new 2 0 0 0) [0; 0] [3; 4] 1 10) = 0%Z
  /\ s_x (snd (Solve_exact (fun q => q) (cg_new 2 0 0 0) [0; 0] [3; 4] 1 10))
     = [0; 0].
Proof.
  unfold Solve_exact, Solve, Solve_init, pure_operator, residual_init, norm2.
  run_exact.
  replace (- (1) * 0 + 1 * 3) with 3 by ring.
  replace (- (1) * 0 + 1 * 4) with 4 by ring.
  replace (3 * 3 + (4 * 4 + 0)) with 25 by ring.
  rewrite sqrt_sqrt by lra.
  rewrite mymax_R.
  replace (Rleb _ _) with true.
  2:{ symmetry. apply Rleb_true. unfold Rmax. destruct (Rle_dec _ _); lra. }
  split; reflexivity.
Qed.

(** C6, as stated, fails: with the identity operator, x = 0 and r = r0,
    Solve returns 0, not 1, and leaves x = 0, not r0, when the initial
    residual already meets the tolerance (r0 = (3, 4) with tolerance 1, in
    exact arithmetic and on binary64; r0 = 0 with any tolerance) or when
    MAXIT is 0. *)
Lemma identity_solve_without_iteration :
  (fst (Solve_exact (fun q => q) (cg_new 2 0 0 0) [0; 0] [3; 4] 1 10) = 0%Z
   /\ s_x (snd (Solve_exact (fun q => q) (cg_new 2 0 0 0)
                  [0; 0] [3; 4] 1 10)) = [0; 0])
  /\ (fst (Sample.Solve_identity [3; 4]%float 1%float 10) = 0%Z
      /\ s_x (snd (Sample.Solve_identity [3; 4]%float 1%float 10))
         = [0; 0]%float)
  /\ fst (Sample.Solve_identity [0; 0]%float 0x1p-30%float 10) = 0%Z
  /\ fst (Sample.Solve_identity [3; 4]%float 0x1p-30%float 0) = 0%Z.
Proof.
  split; [exact identity_solve_without_iteration_exact|].
  destruct identity_solve_without_iteration_binary64 as (H1 & H2 & H3 & _).
  repeat split; try apply H1; assumption.
Qed.

End ExactFacts.

(** ** Device configuration: local ranks *)

Section LocalRankFacts.
Import Platform.

Implicit Types (h : String.string) (hs : list String.string).

Lemma count_same_acc h hs n trips count :
  count_same h hs n trips count = count + count_same h hs n trips 0.
Proof.
  revert n count; induction trips as [|t IH]; intros n count; simpl.
  - lia.
  - destruct (String.eqb h (nth n hs String.EmptyString)).
    + rewrite (IH (S n) (count + 1)), (IH (S n) 1). lia.
    + apply IH.
Qed.

Lemma count_same_bounds h hs n trips :
  0 <= count_same h hs n trips 0 <= Z.of_nat trips.
Proof.
  revert n; induction trips as [|t IH]; intros n; simpl; [lia|].
  specialize (IH (S n)).
  destruct (String.eqb h (nth n hs String.EmptyString)); [|lia].
  rewrite count_same_acc. lia.
Qed.

Lemma count_same_split h hs n a b :
  count_same h hs n (a + b) 0
  = count_same h hs n a 0 + count_same h hs (n + a) b 0.
Proof.
  revert n; induction a as [|a IH]; intros n.
  - simpl. now rewrite Nat.add_0_r.
  - cbn [Nat.add count_same].
    destruct (String.eqb h (nth n hs String.EmptyString)).
    + rewrite (count_same_acc h hs (S n) (a + b)),
        (count_same_acc h hs (S n) a), IH.
      replace (S n + a)%nat with (n + S a)%nat by lia. lia.
    + rewrite IH. replace (S n + a)%nat with (n + S a)%nat by lia.
      reflexivity.
Qed.

Lemma count_same_hit h hs n trips :
  String.eqb h (nth n hs String.EmptyString) = true ->
  1 <= count_same h hs n (S trips) 0.
Proof.
  intros E. simpl. rewrite E, count_same_acc.
  pose proof (count_same_bounds h hs (S n) trips). lia.
Qed.

Lemma localSize_split (rank size : Z) hs :
  0 <= rank < size ->
  exists later,
    1 <= later <= size - rank
    /\ localSize rank size hs = localRank rank hs + later
    /\ 0 <= localRank rank hs <= rank.
Proof.
  intros Hr. unfold localRank, localSize.
  set (h := hostname_of rank hs).
  replace (Z.to_nat size)
    with (Z.to_nat rank + S (Z.to_nat (size - rank - 1)))%nat by lia.
  rewrite count_same_split, Nat.add_0_l.
  pose proof (count_same_bounds h hs 0 (Z.to_nat rank)) as Hb.
  pose proof (count_same_bounds h hs (Z.to_nat rank)
                (S (Z.to_nat (size - rank - 1)))) as Hb2.
  assert (Hhit : 1 <= count_same h hs (Z.to_nat rank)
                        (S (Z.to_nat (size - rank - 1))) 0).
  { apply count_same_hit. unfold h, hostname_of. apply String.eqb_refl. }
  eexists. split; [|split; [reflexivity|]]; lia.
Qed.

Lemma localRank_split (rank1 rank2 : Z) hs :
  0 <= rank1 < rank2 ->
  hostname_of rank1 hs = hostname_of rank2 hs ->
  exists between,
    1 <= between /\ localRank rank2 hs = localRank rank1 hs + between.
Proof.
  intros Hr Hh. unfold localRank. rewrite <- Hh.
  set (h := hostname_of rank1 hs).
  replace (Z.to_nat rank2)
    with (Z.to_nat rank1 + S (Z.to_nat (rank2 - rank1 - 1)))%nat by lia.
  rewrite count_same_split, Nat.add_0_l.
  eexists. split; [|reflexivity].
  apply count_same_hit. unfold h, hostname_of. apply String.eqb_refl.
Qed.

(** X1. A rank counts itself among the ranks of its node and not among
    those before it: for 0 <= rank < size, 0 <= localRank <= rank and
    localRank < localSize <= size; in particular localSize >= 1. *)
Theorem localRank_below_localSize (rank size : Z) hs :
  0 <= rank < size ->
  0 <= localRank rank hs <= rank
  /\ localRank rank hs < localSize rank size hs
  /\ localSize rank size hs <= size.
Proof.
  intros Hr.
  destruct (localSize_split rank size hs Hr) as (later & Hl & -> & Hk).
  lia.
Qed.

(** X2. Ranks of one node are numbered apart: of two ranks with the same
    host name, the later one has the larger localRank, and both see the
    same localSize. *)
Theorem localRank_increasing_on_node (rank1 rank2 size : Z) hs :
  0 <= rank1 < rank2 ->
  hostname_of rank1 hs = hostname_of rank2 hs ->
  localRank rank1 hs < localRank rank2 hs
  /\ localSize rank1 size hs = localSize rank2 size hs.
Proof.
  intros Hr Hh.
  destruct (localRank_split rank1 rank2 hs Hr Hh) as (between & Hb & ->).
  split; [lia|]. unfold localSize. now rewrite Hh.
Qed.

Lemma localRank_below_localSize_witness :
  0 <= localRank 4 (hostnames sample_env) <= 4
  /\ localRank 4 (hostnames sample_env)
     < localSize 4 6 (hostnames sample_env)
  /\ localSize 4 6 (hostnames sample_env) <= 6.
Proof.
  apply (localRank_below_localSize 4 6 (hostnames sample_env)). lia.
Defined.

Lemma localRank_increasing_on_node_witness :
  localRank 2 (hostnames sample_env) < localRank 4 (hostnames sample_env)
  /\ localSize 2 6 (hostnames sample_env)
     = localSize 4 6 (hostnames sample_env).
Proof.
  apply (localRank_increasing_on_node 2 4 6 (hostnames sample_env));
    [lia | reflexivity].
Defined.

End LocalRankFacts.

(** ** Device configuration: device, threads, cache directory, aborts *)

Section DeviceConfigFacts.
Import Platform String.
Local Open Scope string_scope.
Variable compareSetting : String.string -> String.string -> bool.
Variable getSetting : String.string -> Z.
Variable getDeviceCount : String.string -> Z.
Variable stoi : String.string -> Z.
Variable stoi_throws : String.string -> bool.
Variable HIPBONE_DIR : String.string.

Abbreviation choose_device := (Platform.choose_device getSetting getDeviceCount).
Abbreviation device_mode :=
  (Platform.device_mode compareSetting getSetting getDeviceCount).
Abbreviation base_mode := (Platform.base_mode compareSetting).
Abbreviation choose_threads := (Platform.choose_threads stoi).
Abbreviation choose_cache_dir := (Platform.choose_cache_dir HIPBONE_DIR).
Abbreviation threads_throw := (Platform.threads_throw stoi_throws).
Abbreviation DeviceConfig :=
  (Platform.DeviceConfig compareSetting getSetting getDeviceCount stoi
     stoi_throws HIPBONE_DIR).

Implicit Types (hostname mode : String.string).

(** X3. On a run of more than one rank with at least one device on the
    node, the device chosen for a local rank >= 0 is a valid device number,
    0 <= device_id < deviceCount: the local rank itself, without a
    warning, when it is below the device count, and the local rank modulo
    the device count, with one warning, otherwise.  With no device counted
    (deviceCount <= 0) the local rank is taken as it is and nothing is
    divided; with one rank the DEVICE NUMBER setting is taken. *)
Theorem choose_device_in_range (rank size lRank : Z) hostname mode :
  0 <= lRank ->
  let deviceCount := getDeviceCount mode in
  let chosen := choose_device rank size lRank hostname mode in
  (size <> 1 -> 0 < deviceCount ->
     0 <= fst chosen < deviceCount
     /\ (lRank < deviceCount -> chosen = (lRank, []))
     /\ (deviceCount <= lRank ->
         fst chosen = lRank mod deviceCount
         /\ List.length (snd chosen) = 1%nat))
  /\ (size <> 1 -> deviceCount <= 0 -> chosen = (lRank, []))
  /\ (size = 1 -> chosen = (getSetting "DEVICE NUMBER", [])).
Proof.
  intros HL; cbv zeta. unfold Platform.choose_device.
  repeat match goal with |- _ /\ _ => split end.
  - intros Hs Hd. destruct (Z.eqb_spec size 1); [contradiction|].
    destruct (Z.gtb_spec (getDeviceCount mode) 0); [|lia].
    destruct (Z.geb_spec lRank (getDeviceCount mode)); cbn [andb fst snd].
    + rewrite Z.rem_mod_nonneg by lia.
      pose proof (Z.mod_pos_bound lRank (getDeviceCount mode) Hd).
      repeat split; try lia.
    + repeat split; try lia.
  - intros Hs Hd. destruct (Z.eqb_spec size 1); [contradiction|].
    destruct (Z.gtb_spec (getDeviceCount mode) 0); [lia|]. reflexivity.
  - intros ->. reflexivity.
Qed.

(** X4. On a node with at least as many devices as ranks, two ranks of
    the node get different devices, each its local rank, and neither is
    warned: the numbering by local rank gives every rank a device of its
    own. *)
Theorem ranks_of_a_node_get_distinct_devices (rank1 rank2 size : Z)
    (hs : list String.string) mode :
  0 <= rank1 < rank2 -> rank2 < size -> size <> 1 ->
  hostname_of rank1 hs = hostname_of rank2 hs ->
  localSize rank1 size hs <= getDeviceCount mode ->
  let chosen1 := choose_device rank1 size (localRank rank1 hs)
                   (hostname_of rank1 hs) mode in
  let chosen2 := choose_device rank2 size (localRank rank2 hs)
                   (hostname_of rank2 hs) mode in
  fst chosen1 <> fst chosen2
  /\ chosen1 = (localRank rank1 hs, [])
  /\ chosen2 = (localRank rank2 hs, []).
Proof.
  intros H1 H2 Hs Hh Hd; cbv zeta.
  destruct (localRank_split rank1 rank2 hs H1 Hh) as (between & Hb & E2).
  destruct (localSize_split rank1 size hs ltac:(lia))
    as (later1 & Hl1 & Es1 & Hk1).
  destruct (localSize_split rank2 size hs ltac:(lia))
    as (later2 & Hl2 & Es2 & Hk2).
  assert (Hsame : localSize rank1 size hs = localSize rank2 size hs)
    by (unfold localSize; now rewrite Hh).
  unfold Platform.choose_device.
  destruct (Z.eqb_spec size 1); [contradiction|].
  destruct (Z.geb_spec (localRank rank1 hs) (getDeviceCount mode)); [lia|].
  destruct (Z.geb_spec (localRank rank2 hs) (getDeviceCount mode)); [lia|].
  rewrite !andb_false_r. cbn [fst]. repeat split. lia.
Qed.

Lemma string_append_assoc (a b c : string) : (a ++ b) ++ c = a ++ b ++ c.
Proof. induction a as [|x a IH]; simpl; [reflexivity | now rewrite IH]. Qed.

Lemma string_length_zero (d : string) :
  Nat.eqb (String.length d) 0 = true <-> d = "".
Proof. destruct d; simpl; split; congruence. Qed.

Lemma pop_back_brace (body : string) : pop_back (body ++ "}") = body.
Proof.
  induction body as [|x body IH]; [reflexivity|].
  cbn [append pop_back]. rewrite IH.
  destruct (body ++ "}") eqn:E; [destruct body; discriminate | reflexivity].
Qed.

(** X5. With OMP_NUM_THREADS unset or empty, a rank 0 <= rank < size gets
    max(NcoresPerNode / localSize, 1) threads, at least one (localSize >= 1,
    so the division is defined).  If the node has at least as many cores as
    ranks, the ranks' threads fit its cores and no warning is issued;
    otherwise each rank gets one thread and the oversubscription warning is
    issued. *)
Theorem default_threads_fit_the_node (rank size NcoresPerNode : Z)
    (hs : list string) hostname (ompEnvVar : option string) :
  0 <= rank < size ->
  ompEnvVar = None \/ ompEnvVar = Some "" ->
  let lSize := localSize rank size hs in
  let Nthreads := choose_threads NcoresPerNode lSize ompEnvVar in
  1 <= lSize
  /\ 1 <= Nthreads
  /\ Nthreads = Z.max (Z.quot NcoresPerNode lSize) 1
  /\ (lSize <= NcoresPerNode ->
      Nthreads * lSize <= NcoresPerNode
      /\ threads_warning rank Nthreads lSize NcoresPerNode hostname = [])
  /\ (NcoresPerNode < lSize ->
      Nthreads = 1
      /\ threads_warning rank Nthreads lSize NcoresPerNode hostname
         = [cpu_warning rank hostname]).
Proof.
  intros Hr Henv; cbv zeta.
  destruct (localSize_split rank size hs Hr) as (later & Hl & Es & Hk).
  set (lSize := localSize rank size hs) in *.
  assert (HL : 1 <= lSize) by lia.
  assert (E : choose_threads NcoresPerNode lSize ompEnvVar
              = Z.max (Z.quot NcoresPerNode lSize) 1).
  { destruct Henv as [-> | ->]; reflexivity. }
  rewrite E. unfold threads_warning.
  repeat match goal with |- _ /\ _ => split end; try lia.
  - intros Hfit. rewrite Z.quot_div_nonneg by lia.
    assert (1 <= NcoresPerNode / lSize)
      by (apply Z.div_le_lower_bound; lia).
    pose proof (Z.mul_div_le NcoresPerNode lSize ltac:(lia)).
    rewrite Z.max_l by lia.
    split; [lia|].
    destruct (Z.gtb_spec (NcoresPerNode / lSize * lSize) NcoresPerNode);
      [lia | reflexivity].
  - intros Hless.
    assert (Hq : Z.quot NcoresPerNode lSize <= 0).
    { destruct (Z.le_gt_cases 0 NcoresPerNode).
      - rewrite Z.quot_small by lia. lia.
      - apply Z.quot_le_upper_bound; lia. }
    rewrite Z.max_r by lia. split; [reflexivity|].
    destruct (Z.gtb_spec (1 * lSize) NcoresPerNode); [reflexivity | lia].
Qed.

(** X6. The directory given to the kernel cache is never the empty
    string: it is HIPBONE_CACHE_DIR when that is set and not empty, and
    HIPBONE_DIR/.occa when it is unset or empty. *)
Theorem cache_dir_never_empty (cacheEnvVar : option string) :
  choose_cache_dir cacheEnvVar <> ""
  /\ (forall dir, cacheEnvVar = Some dir -> dir <> "" ->
        choose_cache_dir cacheEnvVar = dir)
  /\ (cacheEnvVar = None \/ cacheEnvVar = Some "" ->
      choose_cache_dir cacheEnvVar = HIPBONE_DIR ++ "/.occa").
Proof.
  assert (Hne : HIPBONE_DIR ++ "/.occa" <> "")
    by (destruct HIPBONE_DIR; discriminate).
  repeat match goal with |- _ /\ _ => split end.
  - destruct cacheEnvVar as [[|c d]|]; simpl; [exact Hne | discriminate |
      exact Hne].
  - intros dir -> Hd. destruct dir; [contradiction | reflexivity].
  - intros [-> | ->]; reflexivity.
Qed.

(** X7. The set-up string is the thread model's string, closed by a brace;
    for CUDA, HIP and OpenCL the device number is put in before that
    closing brace (pop_back removes exactly the brace), with the warnings of
    the device choice; for OpenMP and the Serial fall-back the string is
    left as it is and no device is chosen. *)
Theorem device_mode_shape (rank size lRank : Z) hostname :
  let mode := base_mode (platform_number compareSetting getSetting) in
  let chosen := choose_device rank size lRank hostname mode in
  exists body,
    mode = body ++ "}"
    /\ (takes_device_id compareSetting = true ->
        device_mode rank size lRank hostname
        = (body ++ ", device_id: " ++ to_string (fst chosen) ++ "}",
           snd chosen))
    /\ (takes_device_id compareSetting = false ->
        device_mode rank size lRank hostname = (mode, [])
        /\ (mode = "{mode: 'OpenMP'}" \/ mode = "{mode: 'Serial'}")).
Proof.
  cbv zeta.
  assert (Hbody : exists body,
            base_mode (platform_number compareSetting getSetting)
            = body ++ "}").
  { unfold Platform.base_mode.
    destruct (compareSetting "THREAD MODEL" "CUDA");
      [exists "{mode: 'CUDA'"; reflexivity|].
    destruct (compareSetting "THREAD MODEL" "HIP");
      [exists "{mode: 'HIP'"; reflexivity|].
    destruct (compareSetting "THREAD MODEL" "OpenCL").
    { eexists. symmetry. apply string_append_assoc. }
    destruct (compareSetting "THREAD MODEL" "OpenMP");
      [exists "{mode: 'OpenMP'"; reflexivity|].
    exists "{mode: 'Serial'"; reflexivity. }
  destruct Hbody as [body Hbody]. exists body.
  split; [exact Hbody|]. unfold Platform.device_mode. split.
  - intros ->.
    destruct (Platform.choose_device _ _ _ _ _ _ _) as [id w] eqn:E.
    unfold add_device_id. rewrite Hbody at 1. rewrite pop_back_brace.
    reflexivity.
  - intros Hno. rewrite Hno. split; [reflexivity|].
    unfold takes_device_id in Hno. unfold Platform.base_mode.
    destruct (compareSetting "THREAD MODEL" "CUDA"); [discriminate|].
    destruct (compareSetting "THREAD MODEL" "HIP"); [discriminate|].
    destruct (compareSetting "THREAD MODEL" "OpenCL"); [discriminate|].
    destruct (compareSetting "THREAD MODEL" "OpenMP"); auto.
Qed.

(** X8. How DeviceConfig ends, in the order of the source.  If either popen
    fails it aborts with "popen() failed!", whatever the other pipe gives.
    If both open and the core count cannot be read, it aborts with "Error
    reading core count".  A core-count line std::stoi throws on ends the
    call in an uncaught exception, before the socket pipe is read (so also
    when that read would fail).  With the core count read and converted, a
    failed read of the socket count aborts with "Error reading core count",
    and a socket line std::stoi throws on ends in an uncaught exception, as
    does a nonempty OMP_NUM_THREADS it throws on.  In every other case the
    call gets to device.setup, with the thread count chosen from the int
    product of the two numbers read, the set-up string and the cache
    directory. *)
Theorem DeviceConfig_aborts_when_a_pipe_fails (e : env_t) :
  (pipeCores e = popen_failed \/ pipeSockets e = popen_failed ->
   DeviceConfig e = Abort "popen() failed!")
  /\ (pipeCores e = fgets_failed -> pipeSockets e <> popen_failed ->
      DeviceConfig e = Abort "Error reading core count")
  /\ (forall cores,
        pipeCores e = line cores -> pipeSockets e <> popen_failed ->
        stoi_throws cores = true ->
        DeviceConfig e = Uncaught_exception)
  /\ (forall cores,
        pipeCores e = line cores -> stoi_throws cores = false ->
        pipeSockets e = fgets_failed ->
        DeviceConfig e = Abort "Error reading core count")
  /\ (forall cores sockets,
        pipeCores e = line cores -> stoi_throws cores = false ->
        pipeSockets e = line sockets ->
        (stoi_throws sockets = true
         \/ threads_throw (OMP_NUM_THREADS e) = true ->
         DeviceConfig e = Uncaught_exception)
        /\ (stoi_throws sockets = false ->
            threads_throw (OMP_NUM_THREADS e) = false ->
            exists c,
              DeviceConfig e = Configured c
              /\ setup_mode c
                 = fst (device_mode (rank e) (size e)
                          (localRank (rank e) (hostnames e))
                          (hostname_of (rank e) (hostnames e)))
              /\ omp_threads c
                 = choose_threads
                     (CInt.mul (stoi cores) (stoi sockets))
                     (localSize (rank e) (size e) (hostnames e))
                     (OMP_NUM_THREADS e)
              /\ occaCacheDir c = choose_cache_dir (HIPBONE_CACHE_DIR e))).
Proof.
  unfold Platform.DeviceConfig.
  destruct (Platform.device_mode _ _ _ _ _ _ _) as [mode w].
  repeat match goal with |- _ /\ _ => split end.
  - intros [E | E]; rewrite E; [reflexivity|].
    destruct (pipeCores e); reflexivity.
  - intros E Hs. rewrite E.
    destruct (pipeSockets e); [contradiction | reflexivity | reflexivity].
  - intros cores E Hs Ht. rewrite E.
    destruct (pipeSockets e); [contradiction | |];
      cbv beta iota; rewrite Ht; reflexivity.
  - intros cores E Ht Es. rewrite E, Es. cbv beta iota. rewrite Ht.
    reflexivity.
  - intros cores sockets E Ht Es. rewrite E, Es. cbv beta iota. rewrite Ht.
    split.
    + intros [Hs | Hs].
      * rewrite Hs. reflexivity.
      * destruct (stoi_throws sockets); [reflexivity|].
        cbv beta iota zeta. rewrite Hs. reflexivity.
    + intros Hs Hth. rewrite Hs. cbv beta iota zeta. rewrite Hth.
      eexists. split; [reflexivity|]. repeat split.
Qed.

(** The sample node: the two lines end in a newline and are read as 8 and
    2; when the core-count line holds no numeral the call ends in an
    uncaught exception, although the socket pipe has nothing to read. *)
Lemma sample_DeviceConfig_runs :
  (exists c, sample_DeviceConfig sample_env = Configured c
             /\ omp_threads c = 5
             /\ setup_mode c = "{mode: 'HIP', device_id: 2}"
             /\ occaCacheDir c = "/opt/hipBone/.occa"
             /\ warnings c = [])
  /\ sample_DeviceConfig sample_env_no_count = Uncaught_exception.
Proof.
  split; [eexists; split; [vm_compute; reflexivity | repeat split] |
          vm_compute; reflexivity].
Qed.

End DeviceConfigFacts.

Section DeviceConfigSample.
Import Platform String.
Local Open Scope string_scope.

Lemma choose_device_in_range_witness :
  fst (Platform.choose_device sample_getSetting sample_getDeviceCount
         5 6 6 "b" "{mode: 'HIP'}") = 2
  /\ List.length
       (snd (Platform.choose_device sample_getSetting sample_getDeviceCount
               5 6 6 "b" "{mode: 'HIP'}")) = 1%nat.
Proof.
  destruct (choose_device_in_range sample_getSetting sample_getDeviceCount
              5 6 6 "b" "{mode: 'HIP'}" ltac:(lia)) as (Hmany & _).
  destruct Hmany as (_ & _ & Hover); [lia | reflexivity |].
  apply Hover. vm_compute. discriminate.
Defined.

Lemma ranks_of_a_node_get_distinct_devices_witness :
  fst (Platform.choose_device sample_getSetting sample_getDeviceCount 2 6
         (localRank 2 (hostnames sample_env))
         (hostname_of 2 (hostnames sample_env)) "{mode: 'HIP'}")
  <> fst (Platform.choose_device sample_getSetting sample_getDeviceCount 4 6
            (localRank 4 (hostnames sample_env))
            (hostname_of 4 (hostnames sample_env)) "{mode: 'HIP'}")
  /\ localRank 4 (hostnames sample_env) = 2.
Proof.
  split; [|reflexivity].
  apply (ranks_of_a_node_get_distinct_devices sample_getSetting
           sample_getDeviceCount 2 4 6 (hostnames sample_env)
           "{mode: 'HIP'}"); try lia; try reflexivity.
  vm_compute. discriminate.
Defined.

Lemma default_threads_fit_the_node_witness :
  Platform.choose_threads sample_stoi 16
    (localSize 4 6 (hostnames sample_env)) None = 5
  /\ threads_warning 4 5 (localSize 4 6 (hostnames sample_env)) 16 "a" = [].
Proof.
  destruct (default_threads_fit_the_node sample_stoi 4 6 16
              (hostnames sample_env) "a" None ltac:(lia) (or_introl eq_refl))
    as (_ & _ & E & Hfit & _).
  split; [exact E|].
  apply Hfit. vm_compute. discriminate.
Defined.

End DeviceConfigSample.

(** ** The solver: how many iterations, and what the count means *)

Section SolveCountFacts.
Import LinAlg CG.
Context {F : Type} `{Scalar F}.
Variable comm : F -> F.
Variable Operator : list F -> list F -> list F * list F.

Lemma cg_loop_converged fuel TOL iter (s : CG.solve_t F) :
  fst (CG.cg_loop comm Operator fuel TOL iter s) < iter + Z.of_nat fuel ->
  fleb (s_rdotr (snd (CG.cg_loop comm Operator fuel TOL iter s))) TOL = true.
Proof.
  revert iter s; induction fuel as [|fuel IH]; intros iter s.
  - simpl. lia.
  - cbn [CG.cg_loop]. destruct (fleb (s_rdotr s) TOL) eqn:E.
    + intros _. exact E.
    + intros Hlt. apply IH. lia.
Qed.

(** X9. Solve returns a count between 0 and MAXIT (0 when MAXIT <= 0, in
    which case only the initial residual computation has run).  A count
    below MAXIT means the loop was left by the tolerance test: the final
    rdotr satisfies rdotr <= TOL.  A count of MAXIT says nothing about
    convergence: the tolerance is not tested after the last iteration. *)
Theorem Solve_count_and_convergence (c : CG.cg_t F) (o_x o_r : list F)
    (tol : F) (MAXIT : Z) :
  let TOL := fst (CG.Solve_init comm Operator c o_x o_r tol) in
  let result := CG.Solve comm Operator c o_x o_r tol MAXIT in
  0 <= fst result <= Z.max MAXIT 0
  /\ (fst result < MAXIT -> fleb (s_rdotr (snd result)) TOL = true)
  /\ (fleb (s_rdotr (snd result)) TOL = false -> fst result = Z.max MAXIT 0)
  /\ (MAXIT <= 0 ->
      result = (0, snd (CG.Solve_init comm Operator c o_x o_r tol))).
Proof.
  cbv zeta. rewrite Solve_unfold.
  set (TOL := fst (CG.Solve_init comm Operator c o_x o_r tol)).
  set (s0 := snd (CG.Solve_init comm Operator c o_x o_r tol)).
  pose proof (cg_loop_count comm Operator (Z.to_nat MAXIT) TOL 0 s0) as Hc.
  pose proof (cg_loop_converged (Z.to_nat MAXIT) TOL 0 s0) as Hv.
  repeat match goal with |- _ /\ _ => split end; try lia.
  - intros Hlt. apply Hv. lia.
  - intros Hno.
    destruct (Z_lt_le_dec
                (fst (CG.cg_loop comm Operator (Z.to_nat MAXIT) TOL 0 s0))
                (0 + Z.of_nat (Z.to_nat MAXIT))) as [Hlt|Hge].
    + rewrite (Hv Hlt) in Hno. discriminate.
    + lia.
  - intros Hle. replace (Z.to_nat MAXIT) with 0%nat by lia. reflexivity.
Qed.

(** X13. On a rank that owns no unknowns (N <= 0) UpdateCG changes neither
    x nor r nor the solver's p and Ap, and still takes part in the
    reduction, contributing the reset accumulator plus an empty sum; for
    N = 0 the fused kernel is launched with zero blocks (this launch is not
    guarded by its count). *)
Theorem UpdateCG_without_unknowns (c : CG.cg_t F) (alpha : F)
    (o_x o_r : list F) :
  N c <= 0 ->
  u_x (UpdateCG comm c alpha o_x o_r) = o_x
  /\ u_r (UpdateCG comm c alpha o_x o_r) = o_r
  /\ o_p (u_cg (UpdateCG comm c alpha o_x o_r)) = o_p c
  /\ o_Ap (u_cg (UpdateCG comm c alpha o_x o_r)) = o_Ap c
  /\ u_rdotr (UpdateCG comm c alpha o_x o_r) = comm (fadd fzero fzero)
  /\ (N c = 0 -> UpdateCG_Nblocks (N c) = 0).
Proof.
  intros HN.
  destruct (UpdateCG_fields comm c alpha o_x o_r)
    as (Ex & Er & Erd & Ep & EAp & _).
  rewrite Ex, Er, Erd, Ep, EAp.
  unfold solution_update, residual_update, updateCGKernel_r.
  replace (Z.to_nat (N c)) with 0%nat by lia.
  repeat match goal with |- _ /\ _ => split end; try reflexivity.
  intros ->. reflexivity.
Qed.

End SolveCountFacts.

(** X12. On the sizes for which N + 1024 - 1 is an int, 0 <= N <= INT_MAX -
    1023, the block count of the fused kernel grows with the problem size
    and never beyond 1024: it is nondecreasing in N, zero exactly for N = 0,
    and at least 1 for N >= 1. *)
Theorem UpdateCG_Nblocks_monotone (N M : Z) :
  0 <= N <= M -> M <= CInt.INT_MAX - 1023 ->
  CG.UpdateCG_Nblocks N <= CG.UpdateCG_Nblocks M <= 1024
  /\ (CG.UpdateCG_Nblocks N = 0 <-> N = 0)
  /\ (1 <= N -> 1 <= CG.UpdateCG_Nblocks N).
Proof.
  intros H HM. rewrite !UpdateCG_Nblocks_in_range by lia.
  rewrite !Z.quot_div_nonneg by lia.
  assert (HNM : (N + 1024 - 1) / 1024 <= (M + 1024 - 1) / 1024)
    by (apply Z.div_le_mono; lia).
  destruct (Z.gtb_spec ((N + 1024 - 1) / 1024) 1024);
    destruct (Z.gtb_spec ((M + 1024 - 1) / 1024) 1024);
    repeat split; intros; Z.div_mod_to_equations; lia.
Qed.

Lemma UpdateCG_Nblocks_monotone_witness :
  CG.UpdateCG_Nblocks 1024 <= CG.UpdateCG_Nblocks 1025 <= 1024.
Proof.
  apply (UpdateCG_Nblocks_monotone 1024 1025); unfold CInt.INT_MAX; lia.
Defined.

Lemma UpdateCG_without_unknowns_witness :
  CG.u_x (CG.UpdateCG Sample.one_rank (CG.cg_new 0 2 0%float 0%float)
         5%float [1; 2]%float [3; 4]%float) = [1; 2]%float
  /\ CG.u_r (CG.UpdateCG Sample.one_rank (CG.cg_new 0 2 0%float 0%float)
            5%float [1; 2]%float [3; 4]%float) = [3; 4]%float.
Proof.
  destruct (UpdateCG_without_unknowns Sample.one_rank
              (CG.cg_new 0 2 0%float 0%float) 5%float
              [1; 2]%float [3; 4]%float ltac:(cbn; lia))
    as (Hx & Hr & _).
  split; assumption.
Defined.

(** ** The solver in exact arithmetic: the residual it keeps *)

Section ResidualFacts.
Import LinAlg CG Exact Residual.
Local Open Scope R_scope.

Ltac real_ops :=
  cbn [fadd fsub fmul fdiv fopp fzero fone fsqrt fleb fltb Scalar_R] in *.

Implicit Types (X Y Z : list R) (n : nat).

Lemma dot_zeros n m X : dot n (repeat 0 m) X = 0.
Proof.
  revert m X; induction n as [|n IH]; intros [|m] [|x X]; simpl; auto.
  real_ops. rewrite IH. ring.
Qed.

Lemma unit_vector_length n i : length (unit_vector n i) = n.
Proof.
  revert i; induction n as [|n IH]; intros [|i]; simpl; auto.
  now rewrite repeat_length.
Qed.

Lemma dot_unit_vector n i X :
  (i < n)%nat -> long n X -> dot n (unit_vector n i) X = nth i X 0.
Proof.
  unfold long. revert i X; induction n as [|n IH]; intros i X Hi HX; [lia|].
  destruct X as [|x X]; simpl in HX; [lia|].
  destruct i as [|i]; simpl; real_ops.
  - rewrite dot_zeros. ring.
  - rewrite IH by lia. ring.
Qed.

Lemma cg_loop_lengths (Op : list R -> list R -> list R * list R)
    fuel TOL iter (s : CG.solve_t R) :
  length (s_x (snd (cg_loop (fun x => x) Op fuel TOL iter s)))
  = length (s_x s)
  /\ length (s_r (snd (cg_loop (fun x => x) Op fuel TOL iter s)))
     = length (s_r s).
Proof.
  revert iter s; induction fuel as [|fuel IH]; intros iter s.
  - split; reflexivity.
  - cbn [cg_loop]. destruct (fleb (s_rdotr s) TOL); [split; reflexivity|].
    destruct (IH (iter + 1)%Z (cg_iteration (fun x => x) Op iter s))
      as [Hx Hr].
    destruct (cg_iteration_fields (fun x => x) Op iter s)
      as (Ex & Er & _).
    rewrite Hx, Hr, Ex, Er. unfold solution_update, residual_update,
      updateCGKernel_r. cbn [fst].
    now rewrite axpy_length, update_r_length.
Qed.

Lemma solver_lengths A (c : CG.cg_t R) x0 b tol MAXIT :
  length (s_x (snd (Solve (fun x => x) (pure_operator A) c x0 b tol MAXIT)))
  = length x0
  /\ length (s_r (snd (Solve (fun x => x) (pure_operator A) c x0 b tol
                         MAXIT)))
     = length b.
Proof.
  rewrite Solve_unfold.
  destruct (cg_loop_lengths (pure_operator A) (Z.to_nat MAXIT)
              (fst (Solve_init (fun x => x) (pure_operator A) c x0 b tol))
              0%Z
              (snd (Solve_init (fun x => x) (pure_operator A) c x0 b tol)))
    as [Hx Hr].
  destruct (Solve_init_fields (fun x => x) (pure_operator A) c x0 b tol)
    as (Ex & _ & _ & _ & Er & _).
  rewrite Hx, Hr, Ex, Er. cbn [pure_operator fst snd].
  now rewrite axpy_length.
Qed.

(** X10. For a symmetric positive definite operator A (no iteration that
    runs then divides by zero: pAp > 0 and the previous rdotr > 0 while
    rdotr > TOL >= 0), in exact arithmetic on one rank, whatever the
    tolerance and MAXIT: when Solve returns, the vector it leaves in r is
    the residual of the x it leaves, r = b - A x on the first N entries (b
    being r at the call), and the rdotr it stopped on is the squared norm of
    that r.  x and r are never out of step. *)
Theorem Solve_keeps_the_residual (A : list R -> list R) (c : CG.cg_t R)
    (x0 b : list R) (tol : R) (MAXIT : Z) :
  SPD (Z.to_nat (N c)) A ->
  long (Z.to_nat (N c)) x0 -> long (Z.to_nat (N c)) b ->
  long (Z.to_nat (N c)) (o_p c) ->
  let s := snd (Solve_exact A c x0 b tol MAXIT) in
  (forall i, (i < Z.to_nat (N c))%nat ->
     nth i (s_r s) 0 = nth i b 0 - nth i (A (s_x s)) 0)
  /\ s_rdotr s = dot (Z.to_nat (N c)) (s_r s) (s_r s)
  /\ length (s_x s) = length x0 /\ length (s_r s) = length b.
Proof.
  intros HA Lx Lb Lp; cbv zeta. unfold Solve_exact.
  pose proof (solver_lengths A c x0 b tol MAXIT) as Hlen.
  rewrite Solve_unfold in *.
  destruct (Solve_init_exact A c x0 b tol HA Lx Lb Lp) as [HT Hinv].
  pose proof (cg_loop_exact _ A b _ (Z.to_nat MAXIT) 0%Z _ HA HT Hinv)
    as (_ & Hn & Lxs & Lrs & Lps & Hrr & Hres & _).
  split; [|split; [exact Hrr | exact Hlen]].
  intros i Hi.
  pose proof (Hres (unit_vector (Z.to_nat (N c)) i)) as Hu.
  rewrite !dot_unit_vector in Hu
    by (try assumption; try (apply (spd_long _ A HA); assumption)).
  apply Hu. unfold long. now rewrite unit_vector_length.
Qed.

(** X11. For a symmetric positive definite operator, in exact arithmetic
    on one rank: when Solve returns after at least one iteration, the
    residual it leaves is orthogonal to the last search direction p (the
    step length alpha = rdotr / pAp is the one that makes it so), and the
    rdotr it stopped on is not negative. *)
Theorem Solve_residual_orthogonal_to_direction (A : list R -> list R)
    (c : CG.cg_t R) (x0 b : list R) (tol : R) (MAXIT : Z) :
  SPD (Z.to_nat (N c)) A ->
  long (Z.to_nat (N c)) x0 -> long (Z.to_nat (N c)) b ->
  long (Z.to_nat (N c)) (o_p c) ->
  (1 <= fst (Solve_exact A c x0 b tol MAXIT))%Z ->
  let s := snd (Solve_exact A c x0 b tol MAXIT) in
  dot (Z.to_nat (N c)) (s_r s) (o_p (s_cg s)) = 0
  /\ 0 <= s_rdotr s.
Proof.
  intros HA Lx Lb Lp; cbv zeta. unfold Solve_exact. rewrite Solve_unfold.
  destruct (Solve_init_exact A c x0 b tol HA Lx Lb Lp) as [HT Hinv].
  pose proof (cg_loop_exact _ A b _ (Z.to_nat MAXIT) 0%Z _ HA HT Hinv)
    as (_ & _ & _ & _ & _ & Hrr & _ & Horth).
  intros Hit. split.
  - destruct Horth as [E0 | Ho]; [lia | exact Ho].
  - rewrite Hrr. apply dot_self_nonneg.
Qed.

Lemma Solve_keeps_the_residual_witness :
  nth 1 (s_r (snd (Solve_exact Sample.diag_1_100_exact (cg_new 2 0 0 0)
                     [0; 0] [10; 1] 0 3))) 0
  = nth 1 [10; 1] 0
    - nth 1 (Sample.diag_1_100_exact
               (s_x (snd (Solve_exact Sample.diag_1_100_exact
                            (cg_new 2 0 0 0) [0; 0] [10; 1] 0 3)))) 0.
Proof.
  destruct (Solve_keeps_the_residual Sample.diag_1_100_exact
              (cg_new 2 0 0 0) [0; 0] [10; 1] 0 3 SPD_diag_1_100)
    as (Hres & _); try (unfold long; simpl; lia).
  apply (Hres 1%nat). simpl. lia.
Defined.

Lemma Solve_diag_exact_first_iteration :
  fst (Solve_exact Sample.diag_1_100_exact (cg_new 2 0 0 0)
         [0; 0] [10; 1] 0 1) = 1%Z.
Proof.
  unfold Solve_exact, Solve, Solve_init, pure_operator, residual_init, norm2.
  cbn [cg_new with_vectors N Nhalo o_p o_Ap s_cg s_x s_r s_rdotr fst snd].
  change (Z.to_nat 2) with 2%nat. change (Z.to_nat 1) with 1%nat.
  cbn [dot axpy repeat cg_loop fst snd s_rdotr s_r s_x s_cg
       Sample.diag_1_100_exact with_vectors N Nhalo o_p o_Ap].
  real_ops.
  replace (1 * 0) with 0 by ring. replace (100 * 0) with 0 by ring.
  replace (- (1) * 0 + 1 * 10) with 10 by ring.
  replace (- (1) * 0 + 1 * 1) with 1 by ring.
  replace (10 * 10 + (1 * 1 + 0)) with 101 by ring.
  rewrite sqrt_sqrt by lra.
  rewrite mymax_R.
  replace (Rleb _ _) with false.
  2:{ symmetry. apply Rleb_false. unfold Rmax. destruct (Rle_dec _ _); lra. }
  reflexivity.
Qed.

Lemma Solve_residual_orthogonal_to_direction_witness :
  dot 2
    (s_r (snd (Solve_exact Sample.diag_1_100_exact (cg_new 2 0 0 0)
                 [0; 0] [10; 1] 0 1)))
    (o_p (s_cg (snd (Solve_exact Sample.diag_1_100_exact (cg_new 2 0 0 0)
                       [0; 0] [10; 1] 0 1)))) = 0.
Proof.
  apply (Solve_residual_orthogonal_to_direction Sample.diag_1_100_exact
           (cg_new 2 0 0 0) [0; 0] [10; 1] 0 1 SPD_diag_1_100);
    try (unfold long; simpl; lia).
  rewrite Solve_diag_exact_first_iteration. lia.
Defined.

End ResidualFacts.

(** ** The order of events in [UpdateCG]: progress and issue order *)

Section StreamProgress.
Import Stream.

Lemma after_commands_steps m m' :
  (exists k, after_commands k m) -> steps m m' ->
  exists k, after_commands k m'.
Proof.
  intros Hinv Hs; induction Hs as [m|m1 m2 m3 H12 IH H23]; [exact Hinv|].
  eapply after_commands_step; [apply IH; exact Hinv | exact H23].
Qed.

(** The device can always work off what has been enqueued. *)
Lemma device_drains p q c t a (d : nat) :
  (c + d <= length q)%nat ->
  steps {| todo := p; queue := q; completed := c; tag := t;
           at_allreduce := a |}
        {| todo := p; queue := q; completed := c + d; tag := t;
           at_allreduce := a |}.
Proof.
  induction d as [|d IH]; intros Hd.
  - rewrite Nat.add_0_r. apply steps_refl.
  - eapply steps_step; [apply IH; lia|].
    replace (c + S d)%nat with (S (c + d)) by lia.
    apply step_device. lia.
Qed.

Lemma run_finishes (n : nat) m :
  length (todo m) = n -> (exists k, after_commands k m) ->
  exists m', steps m m' /\ todo m' = []
             /\ completed m' = length (queue m').
Proof.
  revert m; induction n as [|n IH]; intros [p q c t a] Hlen Hinv;
    cbn [todo] in Hlen.
  - destruct Hinv as [k Hk]. pose proof Hk as (_ & _ & _ & Hc & _).
    cbn [completed queue] in Hc.
    exists {| todo := p; queue := q; completed := c + (length q - c);
              tag := t; at_allreduce := a |}.
    split; [apply device_drains; lia|].
    cbn [todo completed queue]. split; [|lia].
    now apply length_zero_iff_nil.
  - assert (Hc : (c <= length q)%nat).
    { destruct Hinv as [k (_ & _ & _ & Hc & _)]. exact Hc. }
    pose proof (device_drains p q c t a (length q - c) ltac:(lia)) as Hd.
    replace (c + (length q - c))%nat with (length q) in Hd by lia.
    pose proof (after_commands_steps _ _ Hinv Hd) as Hinv1.
    assert (Hhost : exists m2,
              step {| todo := p; queue := q; completed := length q;
                      tag := t; at_allreduce := a |} m2
              /\ length (todo m2) = n).
    { destruct p as [|cmd rest]; [discriminate|].
      injection Hlen as Hlen.
      destruct cmd as [o| | |].
      - eexists. split; [apply step_enqueue | exact Hlen].
      - eexists. split; [apply step_tag | exact Hlen].
      - eexists. split; [apply step_wait | exact Hlen].
        destruct Hinv1 as [k (Hk & Ht & Hq & _ & Htag & _)].
        cbn [todo queue tag] in *.
        do 8 (try destruct k as [|k]); try lia; cbn in Ht;
          try discriminate.
        rewrite Htag by lia. rewrite Hq. cbn. lia.
      - eexists. split; [apply step_allreduce | exact Hlen]. }
    destruct Hhost as (m2 & Hstep & Hlen2).
    destruct (IH m2 Hlen2 (after_commands_step _ _ Hinv1 Hstep))
      as (m' & Hs' & Hdone).
    exists m'. split; [|exact Hdone].
    eapply steps_trans; [exact Hd|].
    eapply steps_trans; [|exact Hs'].
    eapply steps_step; [apply steps_refl | exact Hstep].
Qed.

(** X14. UpdateCG cannot get stuck at waitFor: from every state a run
    can reach, the run can be brought to its end, where the host has taken
    all its commands, all four pieces of device work (the accumulator
    reset, the fused kernel, the transfer, the solution update) have
    completed, and the reduction has been entered exactly once. *)
Theorem UpdateCG_run_can_always_finish (m : machine) :
  steps (start UpdateCG_host) m ->
  exists m',
    steps m m'
    /\ todo m' = []
    /\ queue m' = [SetKernel; UpdateCGKernel_r; CopyTo_async; Axpy_x]
    /\ outstanding m' = []
    /\ length (at_allreduce m') = 1%nat.
Proof.
  intros Hs.
  pose proof (reachable_after_commands m Hs) as Hinv.
  destruct (run_finishes (length (todo m)) m eq_refl Hinv)
    as (m' & Hs' & Htodo & Hdone).
  exists m'. split; [exact Hs'|]. split; [exact Htodo|].
  destruct (after_commands_steps _ _ Hinv Hs')
    as [k (Hk & Ht & Hq & _ & _ & _ & _ & Hf)].
  rewrite Htodo in Ht.
  do 8 (try destruct k as [|k]); try lia; cbn in Ht; try discriminate.
  cbn in Hq. destruct (Hf eq_refl) as (c & _ & Ha).
  unfold outstanding. rewrite Hdone, Ha, Hq.
  repeat split.
Qed.

(** X15. In every run of UpdateCG the device work is enqueued in program
    order (the queue is always a beginning of: reset, fused kernel,
    transfer, solution update), no more work is completed than was
    enqueued, the solution update is only ever enqueued after the transfer
    and after the tag was taken at three pieces of work, and the reduction
    is entered at most once, as the host's last command. *)
Theorem UpdateCG_stream_order (m : machine) :
  steps (start UpdateCG_host) m ->
  (exists j, queue m = firstn j (enqueued UpdateCG_host))
  /\ (completed m <= length (queue m))%nat
  /\ (In Axpy_x (queue m) ->
      tag m = 3%nat
      /\ queue m = [SetKernel; UpdateCGKernel_r; CopyTo_async; Axpy_x])
  /\ (length (at_allreduce m) <= 1)%nat
  /\ (at_allreduce m <> [] <-> todo m = []).
Proof.
  intros Hs.
  destruct (reachable_after_commands m Hs)
    as [k (Hk & Ht & Hq & Hc & Htag & Hw & Ha & Hf)].
  split.
  { do 8 (try destruct k as [|k]); try lia; cbn in Hq; rewrite Hq;
      [exists 0%nat | exists 1%nat | exists 2%nat | exists 3%nat
       | exists 3%nat | exists 4%nat | exists 4%nat | exists 4%nat];
      reflexivity. }
  split; [exact Hc|]. split.
  { intros Hin. rewrite Hq in Hin |- *.
    do 8 (try destruct k as [|k]); try lia; cbn in Hin |- *;
      try (split; [apply Htag; lia | reflexivity]);
      repeat (destruct Hin as [Hin|Hin]; [discriminate|]);
      contradiction. }
  destruct (Nat.eq_dec k 7) as [E|E].
  - destruct (Hf E) as (c & _ & Hc'). rewrite Hc'. subst k. cbn in Ht.
    rewrite Ht. split; [cbn; lia|]. split; [reflexivity | discriminate].
  - rewrite Ha by lia. split; [cbn; lia|].
    split; [contradiction|]. intros Htodo. exfalso.
    rewrite Htodo in Ht.
    do 8 (try destruct k as [|k]); try lia; cbn in Ht; discriminate.
Qed.

Lemma UpdateCG_run_can_always_finish_witness :
  exists m',
    steps (start UpdateCG_host) m'
    /\ todo m' = []
    /\ queue m' = [SetKernel; UpdateCGKernel_r; CopyTo_async; Axpy_x]
    /\ outstanding m' = []
    /\ length (at_allreduce m') = 1%nat.
Proof.
  apply (UpdateCG_run_can_always_finish (start UpdateCG_host)).
  apply steps_refl.
Defined.

Lemma UpdateCG_stream_order_witness :
  (completed overlap_machine <= length (queue overlap_machine))%nat
  /\ tag overlap_machine = 3%nat.
Proof.
  destruct (UpdateCG_stream_order overlap_machine
              (run_steps overlap_schedule _ _ overlap_run))
    as (_ & Hc & Hax & _).
  split; [exact Hc|]. apply Hax. cbn. tauto.
Defined.

End StreamProgress.

(** ** The local operator: the counts of its launches *)

Section LocalOperatorCounts.
Import Device LocalOp.
Context {B G Dm Lam : Type}.
Variable sizeof_dlong : Z.
Variable kernel : Z -> list Z -> G -> Dm -> Lam -> list B -> list B -> list B.

(** X16. For nonnegative element counts with the local count below
    INT_MAX (so that (count + 1)/2 is computed without overflow), one call
    of LocalOperator issues at most three launches, each with a strictly
    positive element count, each reading the input buffer it was called
    with and writing the member buffer o_AqL, and the counts of the launches
    add up to NlocalGatherElements + NglobalGatherElements. *)
Theorem LocalOperator_launch_counts (hb : LocalOp.hipBone_t G Dm Lam)
    (o_qL o_Aq : handle) (d : LocalOp.device B) :
  0 <= NlocalGatherElements (mesh hb) < CInt.INT_MAX ->
  0 <= NglobalGatherElements (mesh hb) ->
  exists issued,
    launches (LocalOp.LocalOperator sizeof_dlong kernel hb o_qL o_Aq d)
    = launches d ++ issued
    /\ (length issued <= 3)%nat
    /\ Forall (fun k => 0 < k_Nelements k
                        /\ k_q k = o_qL /\ k_Aq k = o_AqL hb) issued
    /\ fold_right (fun k total => k_Nelements k + total) 0 issued
       = NlocalGatherElements (mesh hb) + NglobalGatherElements (mesh hb).
Proof.
  intros Hl Hg. eexists. split; [apply LocalOperator_launches|].
  destruct (half_counts _ Hl) as [Hh2 Hh1].
  unfold when_nonzero, launch_half1, launch_global, launch_half2;
    cbn [k_Nelements].
  destruct (Z.eqb_spec (Z.quot (NlocalGatherElements (mesh hb)) 2) 0);
    destruct (Z.eqb_spec (NglobalGatherElements (mesh hb)) 0);
    destruct (Z.eqb_spec
                (Z.quot (CInt.add (NlocalGatherElements (mesh hb)) 1) 2) 0);
    cbn [app length fold_right k_Nelements];
    (split; [lia|]); (split; [|lia]);
    repeat (apply Forall_cons; [cbn [k_Nelements k_q k_Aq];
                                repeat split; lia|]);
    apply Forall_nil.
Qed.

End LocalOperatorCounts.

Lemma LocalOperator_launch_counts_witness :
  exists issued,
    LocalOp.launches (Sample.LocalOperator5 0%nat 1%nat)
    = LocalOp.launches Sample.dev5 ++ issued
    /\ (length issued <= 3)%nat
    /\ Forall (fun k => 0 < LocalOp.k_Nelements k
                        /\ LocalOp.k_q k = 0%nat
                        /\ LocalOp.k_Aq k = LocalOp.o_AqL Sample.hb5) issued
    /\ fold_right (fun k total => LocalOp.k_Nelements k + total) 0 issued
       = 3 + 2.
Proof.
  apply (LocalOperator_launch_counts 4
           (LocalOp.elementwise_kernel Sample.scale_op) Sample.hb5
           0%nat 1%nat Sample.dev5); cbn; unfold CInt.INT_MAX; lia.
Defined.
